(** * Voice identification service: enrolment store, persistence and matcher

    A shallow embedding of [backend/python_service/main.py].

    - Python floats and the entries of numpy [float64] arrays are IEEE 754
      binary64 numbers: the primitive type [float], whose operations are the
      IEEE ones (a division by zero gives an infinity or a NaN and raises
      nothing; every comparison with a NaN is false).
    - [voice_db] is a Python [dict], which iterates in insertion order and
      holds a key once: an association list whose keys are pairwise distinct
      ([dict_wf]).
    - Exceptions are values of [result]; code that mutates the global state
      before it raises returns the state it leaves behind next to the
      exception.
    - The embedding provider (the encoder, or [np.random.rand] in mock mode)
      and the disk are the environment: the outcome of the provider is the
      argument [embed] of the two handlers, the behaviour of the disk during
      one [save_db] is the argument of type [disk]. *)

From Stdlib Require Import Floats ZArith List String Bool Lia.
Import ListNotations.

#[local] Set Warnings "-inexact-float".

(** ** Exceptions *)

Inductive exn : Type :=
| ValueError      (* np.dot: shapes not aligned *)
| KeyError        (* dict subscript on an absent key *)
| OSError         (* open / write on the embeddings file *)
| ProviderError.  (* temp file, preprocess_wav or the encoder *)

Inductive result (A : Type) : Type :=
| Ok (a : A)
| Raise (e : exn).
Arguments Ok {A} a.
Arguments Raise {A} e.

Definition bind {A B : Type} (m : result A) (k : A -> result B) : result B :=
  match m with
  | Ok a => k a
  | Raise e => Raise e
  end.

Notation "x <- m ;; k" := (bind m (fun x => k))
  (at level 100, m at next level, right associativity).

(** ** binary64 comparisons *)

Module Float64.

(** [a > b] *)
Definition gtb (a b : float) : bool := PrimFloat.ltb b a.

(** [x] is not a NaN: it compares equal to itself. *)
Definition is_number (x : float) : bool := PrimFloat.eqb x x.

End Float64.

(** ** numpy arrays of dimension one *)

(** A one-dimensional array of binary64 entries: what [np.random.rand] and
    [np.array] of a list of Python floats give. An array of another dtype
    (an encoder returning float32 keeps it in memory, where [load_db] after a
    restart gives float64) is not represented: the arithmetic of line 127 is
    the binary64 one throughout. *)
Record ndarray : Type := np_array { tolist : list float }.

Definition shape (a : ndarray) : nat := List.length (tolist a).

(** The sum of the products, each rounded, accumulated from the left. The
    BLAS kernel behind [np.dot] is not part of the source: it may add in
    another order and fuse a multiplication with an addition, and then gives
    a value that differs in the last place. The values of [similarity] below
    are those of this sum. The results that are not plain evaluations use
    [similarity] only through what it raises and through the scores it
    returns, whatever they are; the evaluations are on vectors whose products
    and sums are exact; and what depends on the value of a score is stated
    over an arbitrary dot product ([similarity_with]). *)
Fixpoint inner (a b : list float) (acc : float) : float :=
  match a, b with
  | x :: a', y :: b' => inner a' b' (acc + x * y)%float
  | _, _ => acc
  end.

(** [np.dot(a, b)] on one-dimensional arrays: the shapes are checked first. *)
Definition np_dot (a b : ndarray) : result float :=
  if Nat.eqb (shape a) (shape b)
  then Ok (inner (tolist a) (tolist b) 0%float)
  else Raise ValueError.

(** [np.linalg.norm(a)] on a one-dimensional array: [sqrt(a.dot(a))]. *)
Definition np_linalg_norm (a : ndarray) : float :=
  PrimFloat.sqrt (inner (tolist a) (tolist a) 0%float).

(** Line 127:
    [np.dot(q, e) / (np.linalg.norm(q) * np.linalg.norm(e))]. *)
Definition similarity (query_embedding enrolled_emb : ndarray) : result float :=
  d <- np_dot query_embedding enrolled_emb ;;
  Ok (d / (np_linalg_norm query_embedding * np_linalg_norm enrolled_emb))%float.

(** ** The dictionary of enrolled speakers *)

Definition dict (V : Type) : Type := list (string * V).

Definition keys {V : Type} (d : dict V) : list string := map fst d.

Definition dict_wf {V : Type} (d : dict V) : Prop := NoDup (keys d).

(** [d.get(k)] *)
Fixpoint dict_get {V : Type} (k : string) (d : dict V) : option V :=
  match d with
  | [] => None
  | (k', v) :: d' => if String.eqb k k' then Some v else dict_get k d'
  end.

(** [k in d] *)
Definition dict_contains {V : Type} (k : string) (d : dict V) : bool :=
  match dict_get k d with
  | Some _ => true
  | None => false
  end.

(** [d[k] = v]: the value is replaced where the key stands, a new key goes
    to the end. *)
Fixpoint dict_setitem {V : Type} (k : string) (v : V) (d : dict V) : dict V :=
  match d with
  | [] => [(k, v)]
  | (k', v') :: d' =>
      if String.eqb k k' then (k', v) :: d' else (k', v') :: dict_setitem k v d'
  end.

(** [d[k].append(e)]: the subscript raises [KeyError] on an absent key. *)
Fixpoint dict_append {A : Type} (k : string) (e : A) (d : dict (list A))
  : result (dict (list A)) :=
  match d with
  | [] => Raise KeyError
  | (k', v) :: d' =>
      if String.eqb k k' then Ok ((k', v ++ [e]) :: d')
      else d'' <- dict_append k e d' ;; Ok ((k', v) :: d'')
  end.

Definition voice_database : Type := dict (list ndarray).

(** ** The embeddings file *)

(** The text of a JSON object whose members are arrays of arrays of numbers,
    member by member in the order of the text. A JSON number is the binary64
    value it denotes: [json.dump] writes the shortest text that reads back as
    the same value. The file is held as the value its text denotes: white
    space, the spelling of a number and its integer or float form are not
    represented, so two texts of one value are one [json_object]. *)
Definition json_object : Type := list (string * list (list float)).

(** What [embeddings.json] holds. [Malformed] is any content on which the
    body of the try of [load_db] raises: text that [json.load] rejects (a
    write that broke off leaves such a text), or a JSON value without
    [.items()]. JSON of yet another shape that numpy accepts without raising
    is not represented. *)
Inductive file_state : Type :=
| Absent                        (* os.path.exists is false *)
| Malformed                     (* content on which the body of the try raises *)
| Stored (text : json_object).  (* the JSON text of such an object *)

(** [json.load] builds a [dict] from the members: a repeated name keeps its
    first position and its last value. *)
Definition json_load (text : json_object) : dict (list (list float)) :=
  fold_left (fun d kv => dict_setitem (fst kv) (snd kv) d) text [].

(** ** The global state *)

Record world : Type := mk_world {
  voice_db : voice_database;
  embeddings_file : file_state;
  stdout : list string
}.

Definition set_voice_db (db : voice_database) (w : world) : world :=
  {| voice_db := db; embeddings_file := embeddings_file w; stdout := stdout w |}.

Definition set_file (f : file_state) (w : world) : world :=
  {| voice_db := voice_db w; embeddings_file := f; stdout := stdout w |}.

Definition print (line : string) (w : world) : world :=
  {| voice_db := voice_db w; embeddings_file := embeddings_file w;
     stdout := stdout w ++ [line] |}.

(** Line 40, before [load_db] runs. *)
Definition module_start (f : file_state) : world :=
  {| voice_db := []; embeddings_file := f; stdout := [] |}.

(** ** load_db, save_db *)

(** A dict comprehension [{k: f(v) for k, v in d.items()}]. *)
Definition dict_comprehension {V W : Type} (f : V -> W) (d : dict V) : dict W :=
  fold_left (fun acc kv => dict_setitem (fst kv) (f (snd kv)) acc) d [].

Definition load_db (w : world) : world :=
  match embeddings_file w with
  | Absent => w
  | Stored text =>
      let data := json_load text in
      set_voice_db (dict_comprehension (map np_array) data) w
  | Malformed => print "Error loading DB"%string w
  end.

(** What the disk does during one [save_db]. *)
Inductive disk : Type :=
| WriteOk      (* open and json.dump succeed *)
| OpenFails    (* open raises: the file is untouched *)
| WriteFails.  (* open truncates the file, the write raises part-way *)

Definition save_db (d : disk) (w : world) : result unit * world :=
  let serialized := dict_comprehension (map tolist) (voice_db w) in
  match d with
  | WriteOk => (Ok tt, set_file (Stored serialized) w)
  | OpenFails => (Raise OSError, w)
  | WriteFails => (Raise OSError, set_file Malformed w)
  end.

(** Line 64. *)
Definition startup (f : file_state) : world := load_db (module_start f).

(** ** POST /enroll *)

Inductive enroll_response : Type :=
| Success (message : string)
| HTTPException (status_code : nat) (detail : exn).

Definition enroll_speaker (name : string) (embed : result ndarray) (d : disk)
  (w : world) : enroll_response * world :=
  match embed with
  | Raise e => (HTTPException 500 e, w)
  | Ok embedding =>
      let db1 :=
        if negb (dict_contains name (voice_db w))
        then dict_setitem name [] (voice_db w)
        else voice_db w in
      match dict_append name embedding db1 with
      | Raise e => (HTTPException 500 e, set_voice_db db1 w)
      | Ok db2 =>
          match save_db d (set_voice_db db2 w) with
          | (Ok _, w') => (Success ("Enrolled " ++ name)%string, w')
          | (Raise e, w') => (HTTPException 500 e, w')
          end
      end
  end.

(** The state a save leaves behind, by behaviour of the disk. *)
Definition after_save (d : disk) (w : world) : world :=
  match d with
  | WriteOk =>
      set_file (Stored (dict_comprehension (map tolist) (voice_db w))) w
  | OpenFails => w
  | WriteFails => set_file Malformed w
  end.

Definition enroll_outcome (name : string) (d : disk) : enroll_response :=
  match d with
  | WriteOk => Success ("Enrolled " ++ name)%string
  | OpenFails | WriteFails => HTTPException 500 OSError
  end.

(** ** POST /identify *)

Record response : Type := mk_response {
  speaker : string;
  confidence : float
}.

Definition threshold : float := 0.70%float.

(** The running [(best_score, best_match)]. *)
Definition best : Type := float * string.

Definition initial_best : best := ((-1)%float, "Unknown"%string).

(** Lines 128-130. *)
Definition update (name : string) (similarity : float) (b : best) : best :=
  if Float64.gtb similarity (fst b) then (similarity, name) else b.

(** The inner loop, lines 126-130. *)
Fixpoint scan_embeddings (query_embedding : ndarray) (name : string)
  (embeddings : list ndarray) (b : best) : result best :=
  match embeddings with
  | [] => Ok b
  | enrolled_emb :: rest =>
      s <- similarity query_embedding enrolled_emb ;;
      scan_embeddings query_embedding name rest (update name s b)
  end.

(** The outer loop, line 123. *)
Fixpoint scan_db (query_embedding : ndarray) (db : voice_database) (b : best)
  : result best :=
  match db with
  | [] => Ok b
  | (name, embeddings) :: db' =>
      b' <- scan_embeddings query_embedding name embeddings b ;;
      scan_db query_embedding db' b'
  end.

Definition identify_speaker (embed : result ndarray) (w : world)
  : response * world :=
  match voice_db w with
  | [] => ({| speaker := "Unknown"%string; confidence := 0%float |}, w)
  | _ :: _ =>
      match (query_embedding <- embed ;;
             scan_db query_embedding (voice_db w) initial_best) with
      | Ok (best_score, best_match) =>
          let best_match :=
            if PrimFloat.ltb best_score threshold then "Unknown"%string
            else best_match in
          ({| speaker := best_match; confidence := best_score |}, w)
      | Raise e =>
          ({| speaker := "Error"%string; confidence := 0%float |},
           print "Identification Error"%string w)
      end
  end.

(** ** The states of a run *)

(** The module is loaded, then requests are served. *)
Inductive reachable : world -> Prop :=
| reach_startup (f : file_state) : reachable (startup f)
| reach_enroll (name : string) (embed : result ndarray) (d : disk) (w : world) :
    reachable w -> reachable (snd (enroll_speaker name embed d w))
| reach_identify (embed : result ndarray) (w : world) :
    reachable w -> reachable (snd (identify_speaker embed w)).

(** ** The scan, pair by pair *)

(** [voice_db.items()] unfolded into the (speaker, vector) pairs in the order
    the two loops visit them. *)
Definition pairs (db : voice_database) : list (string * ndarray) :=
  flat_map (fun kv => map (pair (fst kv)) (snd kv)) db.

(** The score of every pair, in that order; raises what the first failing
    [similarity] raises. *)
Fixpoint scored (query_embedding : ndarray) (ps : list (string * ndarray))
  : result (list (string * float)) :=
  match ps with
  | [] => Ok []
  | (name, enrolled_emb) :: ps' =>
      s <- similarity query_embedding enrolled_emb ;;
      l <- scored query_embedding ps' ;;
      Ok ((name, s) :: l)
  end.

(** The running best over a list of scores. *)
Definition track (l : list (string * float)) (b : best) : best :=
  fold_left (fun b ns => update (fst ns) (snd ns) b) l b.

(** The greatest score kept by strict greater-than from the initial -1.0. *)
Definition best_score (l : list (string * float)) : float :=
  fst (track l initial_best).

(** The entry of the score list the running best stands for: the speaker
    before the score. *)
Definition track_entry (l : list (string * float)) : string * float :=
  (snd (track l initial_best), best_score l).

(** Every enrolled vector has the shape of the query. *)
Definition aligned (q : ndarray) (db : voice_database) : Prop :=
  forall name embeddings e,
    In (name, embeddings) db -> In e embeddings -> shape e = shape q.

(** The sequence enrolled for a speaker, empty when the speaker is absent. *)
Definition enrolled (name : string) (db : voice_database) : list ndarray :=
  match dict_get name db with
  | Some v => v
  | None => []
  end.

(** The database a restart would read from the file as it stands. *)
Definition persisted (w : world) : voice_database :=
  voice_db (startup (embeddings_file w)).

(** The file is not ahead of the memory: speaker by speaker, what a restart
    would read is a prefix of what is enrolled in memory. *)
Definition file_behind (w : world) : Prop :=
  forall name, exists suffix,
    enrolled name (voice_db w) = enrolled name (persisted w) ++ suffix.

(** ** Requests *)

(** A request to one of the two handlers, with what the environment does
    while it is served. *)
Inductive request : Type :=
| Enroll (name : string) (embed : result ndarray) (d : disk)
| Identify (embed : result ndarray).

(** The state a request leaves. *)
Definition handle (r : request) (w : world) : world :=
  match r with
  | Enroll name embed d => snd (enroll_speaker name embed d w)
  | Identify embed => snd (identify_speaker embed w)
  end.

(** Requests served one after the other. *)
Definition serve (rs : list request) (w : world) : world :=
  fold_left (fun w r => handle r w) rs w.

(** The requests that append a vector: the enrolments whose embedding was
    obtained. *)
Definition appends (r : request) : bool :=
  match r with
  | Enroll _ (Ok _) _ => true
  | _ => false
  end.

(** The requests during which no save fails. *)
Definition save_succeeds (r : request) : bool :=
  match r with
  | Enroll _ (Ok _) WriteOk => true
  | Enroll _ (Ok _) _ => false
  | _ => true
  end.

(** The response of the error branch, lines 138-140. *)
Definition error_response : response :=
  {| speaker := "Error"%string; confidence := 0%float |}.

(** ** The matcher over any dot product *)

(** [np.dot] is library code: the order in which its kernel adds the
    products, and whether it fuses multiplications and additions, is not
    fixed by the source. Here the matcher is written once more over an
    arbitrary function [dot] for the value [np.dot] gives on two arrays of
    one shape; [np.linalg.norm] calls the same [dot] on the array and
    itself. The definitions above are the instance where [dot] is the
    left-to-right sum [inner]. *)
Section AnyDot.

Variable dot : list float -> list float -> float.

Definition np_dot_with (a b : ndarray) : result float :=
  if Nat.eqb (shape a) (shape b)
  then Ok (dot (tolist a) (tolist b))
  else Raise ValueError.

Definition np_linalg_norm_with (a : ndarray) : float :=
  PrimFloat.sqrt (dot (tolist a) (tolist a)).

Definition similarity_with (query_embedding enrolled_emb : ndarray)
  : result float :=
  d <- np_dot_with query_embedding enrolled_emb ;;
  Ok (d / (np_linalg_norm_with query_embedding
           * np_linalg_norm_with enrolled_emb))%float.

Fixpoint scan_embeddings_with (query_embedding : ndarray) (name : string)
  (embeddings : list ndarray) (b : best) : result best :=
  match embeddings with
  | [] => Ok b
  | enrolled_emb :: rest =>
      s <- similarity_with query_embedding enrolled_emb ;;
      scan_embeddings_with query_embedding name rest (update name s b)
  end.

Fixpoint scan_db_with (query_embedding : ndarray) (db : voice_database)
  (b : best) : result best :=
  match db with
  | [] => Ok b
  | (name, embeddings) :: db' =>
      b' <- scan_embeddings_with query_embedding name embeddings b ;;
      scan_db_with query_embedding db' b'
  end.

Definition identify_speaker_with (embed : result ndarray) (w : world)
  : response * world :=
  match voice_db w with
  | [] => ({| speaker := "Unknown"%string; confidence := 0%float |}, w)
  | _ :: _ =>
      match (query_embedding <- embed ;;
             scan_db_with query_embedding (voice_db w) initial_best) with
      | Ok (best_score, best_match) =>
          let best_match :=
            if PrimFloat.ltb best_score threshold then "Unknown"%string
            else best_match in
          ({| speaker := best_match; confidence := best_score |}, w)
      | Raise e =>
          ({| speaker := "Error"%string; confidence := 0%float |},
           print "Identification Error"%string w)
      end
  end.

Fixpoint scored_with (query_embedding : ndarray)
  (ps : list (string * ndarray)) : result (list (string * float)) :=
  match ps with
  | [] => Ok []
  | (name, enrolled_emb) :: ps' =>
      s <- similarity_with query_embedding enrolled_emb ;;
      l <- scored_with query_embedding ps' ;;
      Ok ((name, s) :: l)
  end.

End AnyDot.

(** The left-to-right sum as a dot product. *)
Definition inner_dot (a b : list float) : float := inner a b 0%float.

(** A squared norm between 2^-1000 and 2^1000: neither it, nor its square
    root, nor the product of the two norms overflows or underflows. *)
Definition safe_norm (x : float) : bool :=
  (PrimFloat.leb 0x1p-1000%float x && PrimFloat.leb x 0x1p+1000%float)%bool.

(** The similarity of a vector with itself, from its squared norm [x]:
    line 127 with both arrays the same. *)
Definition self_cosine (x : float) : float :=
  (x / (PrimFloat.sqrt x * PrimFloat.sqrt x))%float.

(** ** Small runs *)

Definition vec (l : list float) : ndarray := np_array l.

Definition alice_bob : voice_database :=
  [("alice"%string, [vec [1; 0]%float]); ("bob"%string, [vec [0; 1]%float])].


(** * Facts *)

(** ** Order facts on binary64 *)

Module Float64Facts.

Lemma compare_cont_Eq (m n : positive) :
  Pos.compare_cont Eq m n = Pos.compare m n.
Proof. reflexivity. Qed.

Ltac cmp_cases :=
  repeat match goal with
  | |- context [Z.compare ?a ?b] => destruct (Z.compare_spec a b)
  | H : context [Z.compare ?a ?b] |- _ => destruct (Z.compare_spec a b)
  | |- context [Pos.compare ?a ?b] => destruct (Pos.compare_spec a b)
  | H : context [Pos.compare ?a ?b] |- _ => destruct (Pos.compare_spec a b)
  end.

(** Case analysis on the IEEE classes, the signs and the
    (exponent, mantissa) comparisons. *)
Ltac sf_order :=
  unfold SFltb, SFleb, SFeqb, SFcompare; intros;
  repeat match goal with x : spec_float |- _ => destruct x end;
  repeat match goal with s : bool |- _ => destruct s end;
  simpl in *; try congruence; try reflexivity;
  rewrite ?compare_cont_Eq in *; cmp_cases; simpl in *; subst;
  try congruence; try lia.

Lemma SFltb_irrefl a : SFltb a a = false.
Proof. sf_order. Qed.

Lemma SFltb_trans a b c :
  SFltb a b = true -> SFltb b c = true -> SFltb a c = true.
Proof. sf_order. Qed.

Lemma SFltb_leb_trans a b c :
  SFltb a b = true -> SFleb b c = true -> SFltb a c = true.
Proof. sf_order. Qed.

Lemma SFleb_ltb_trans a b c :
  SFleb a b = true -> SFltb b c = true -> SFltb a c = true.
Proof. sf_order. Qed.

Lemma SFleb_trans a b c :
  SFleb a b = true -> SFleb b c = true -> SFleb a c = true.
Proof. sf_order. Qed.

Lemma SFleb_total a b :
  SFeqb a a = true -> SFeqb b b = true -> SFltb a b = false ->
  SFleb b a = true.
Proof. sf_order. Qed.

Lemma SFltb_number_r a b : SFltb a b = true -> SFeqb b b = true.
Proof. sf_order. Qed.

Lemma SFleb_number_r a b : SFleb a b = true -> SFeqb b b = true.
Proof. sf_order. Qed.

Ltac to_spec := unfold Float64.gtb, Float64.is_number;
  rewrite ?FloatAxioms.ltb_spec, ?FloatAxioms.leb_spec, ?FloatAxioms.eqb_spec.

Lemma ltb_irrefl (a : float) : PrimFloat.ltb a a = false.
Proof. to_spec. apply SFltb_irrefl. Qed.

Lemma ltb_trans (a b c : float) :
  PrimFloat.ltb a b = true -> PrimFloat.ltb b c = true ->
  PrimFloat.ltb a c = true.
Proof. to_spec. apply SFltb_trans. Qed.

Lemma ltb_leb_trans (a b c : float) :
  PrimFloat.ltb a b = true -> PrimFloat.leb b c = true ->
  PrimFloat.ltb a c = true.
Proof. to_spec. apply SFltb_leb_trans. Qed.

Lemma leb_ltb_trans (a b c : float) :
  PrimFloat.leb a b = true -> PrimFloat.ltb b c = true ->
  PrimFloat.ltb a c = true.
Proof. to_spec. apply SFleb_ltb_trans. Qed.

Lemma leb_trans (a b c : float) :
  PrimFloat.leb a b = true -> PrimFloat.leb b c = true ->
  PrimFloat.leb a c = true.
Proof. to_spec. apply SFleb_trans. Qed.

Lemma leb_total (a b : float) :
  Float64.is_number a = true -> Float64.is_number b = true ->
  PrimFloat.ltb a b = false -> PrimFloat.leb b a = true.
Proof. to_spec. apply SFleb_total. Qed.

Lemma ltb_number_r (a b : float) :
  PrimFloat.ltb a b = true -> Float64.is_number b = true.
Proof. to_spec. apply SFltb_number_r. Qed.

Lemma leb_number_r (a b : float) :
  PrimFloat.leb a b = true -> Float64.is_number b = true.
Proof. to_spec. apply SFleb_number_r. Qed.

Lemma SFltb_leb a b : SFltb a b = true -> SFleb a b = true.
Proof. sf_order. Qed.

Lemma SFleb_refl a : SFeqb a a = true -> SFleb a a = true.
Proof. sf_order. Qed.

Lemma ltb_leb (a b : float) :
  PrimFloat.ltb a b = true -> PrimFloat.leb a b = true.
Proof. to_spec. apply SFltb_leb. Qed.

Lemma leb_refl (a : float) :
  Float64.is_number a = true -> PrimFloat.leb a a = true.
Proof. to_spec. apply SFleb_refl. Qed.

(** [a < b] excludes [b <= a]. *)
Lemma ltb_not_leb (a b : float) :
  PrimFloat.ltb a b = true -> PrimFloat.leb b a = false.
Proof.
  intros Hlt. destruct (PrimFloat.leb b a) eqn:Hle; [|reflexivity].
  pose proof (ltb_leb_trans _ _ _ Hlt Hle) as H.
  rewrite ltb_irrefl in H. discriminate.
Qed.

End Float64Facts.

(** ** Rounding on binary64

    The operations of [float] are specified by [SpecFloat]: a finite number
    is a mantissa and an exponent, and a result is cut to 53 bits and
    rounded to nearest. Below, for normal numbers far from overflow and
    underflow: the cut keeps the quotient of the mantissa by a power of two
    or its successor; from there the square root, its square and the
    quotient of line 127 are bounded in integers. *)

Module Binary64Rounding.

Local Open Scope Z_scope.

Lemma digits2_pos_bounds (p : positive) :
  2 ^ (Zpos (digits2_pos p) - 1) <= Zpos p < 2 ^ Zpos (digits2_pos p).
Proof.
  induction p as [p IH|p IH|]; simpl digits2_pos.
  - rewrite Pos2Z.inj_succ. replace (Z.succ (Zpos (digits2_pos p)) - 1) with (Z.succ (Zpos (digits2_pos p) - 1)) by lia.
    rewrite !Z.pow_succ_r by lia. lia.
  - rewrite Pos2Z.inj_succ. replace (Z.succ (Zpos (digits2_pos p)) - 1) with (Z.succ (Zpos (digits2_pos p) - 1)) by lia.
    rewrite !Z.pow_succ_r by lia. lia.
  - simpl. lia.
Qed.

Lemma digits2_pos_unique (p : positive) (d : Z) :
  2 ^ (d - 1) <= Zpos p < 2 ^ d -> Zpos (digits2_pos p) = d.
Proof.
  intros [Hlo Hhi]. pose proof (digits2_pos_bounds p) as [Blo Bhi].
  set (D := Zpos (digits2_pos p)) in *.
  assert (0 < d). { destruct (Z_lt_le_dec 0 d); [assumption|]. 
    assert (2 ^ d <= 2 ^ 0) by (destruct (Z_lt_le_dec d 0); [rewrite Z.pow_neg_r by lia; simpl; lia| apply Z.pow_le_mono_r; lia]). simpl in *. lia. }
  destruct (Z_lt_le_dec D d).
  - assert (2 ^ D <= 2 ^ (d - 1)) by (apply Z.pow_le_mono_r; lia). lia.
  - destruct (Z_lt_le_dec d D); [|lia].
    assert (2 ^ d <= 2 ^ (D - 1)) by (apply Z.pow_le_mono_r; lia). lia.
Qed.

Lemma shr_1_m (mrs : shr_record) :
  0 <= shr_m mrs -> shr_m (shr_1 mrs) = shr_m mrs / 2.
Proof.
  destruct mrs as [m r s]. cbn [shr_m]. intros Hm.
  destruct m as [|[p|p|]|p]; cbn [shr_1 shr_m]; try reflexivity; try lia.
  - apply Z.div_unique with 1; lia.
  - apply Z.div_unique with 0; lia.
Qed.

Lemma iter_shr_1_m (p : positive) (mrs : shr_record) :
  0 <= shr_m mrs ->
  shr_m (SpecFloat.iter_pos shr_1 p mrs) = shr_m mrs / 2 ^ Zpos p.
Proof.
  revert mrs. induction p as [p IH|p IH|]; intros mrs Hm; cbn [SpecFloat.iter_pos].
  - pose proof (Z.pow_pos_nonneg 2 (Zpos p) ltac:(lia) ltac:(lia)) as Hp.
    assert (H1 : 0 <= shr_m (shr_1 mrs))
      by (rewrite shr_1_m by assumption; apply Z.div_pos; lia).
    assert (H2 : 0 <= shr_m (SpecFloat.iter_pos shr_1 p (shr_1 mrs)))
      by (rewrite IH by assumption; apply Z.div_pos; lia).
    rewrite IH, IH, shr_1_m by assumption.
    rewrite !Z.div_div by lia. f_equal.
    replace (Zpos p~1) with (1 + Zpos p + Zpos p) by lia.
    rewrite !Z.pow_add_r, Z.pow_1_r by lia. ring.
  - pose proof (Z.pow_pos_nonneg 2 (Zpos p) ltac:(lia) ltac:(lia)) as Hp.
    assert (H2 : 0 <= shr_m (SpecFloat.iter_pos shr_1 p mrs))
      by (rewrite IH by assumption; apply Z.div_pos; lia).
    rewrite IH, IH by assumption.
    rewrite !Z.div_div by lia. f_equal.
    replace (Zpos p~0) with (Zpos p + Zpos p) by lia.
    now rewrite Z.pow_add_r by lia.
  - now rewrite shr_1_m.
Qed.

Lemma loc_of_shr_record_of_loc m l :
  loc_of_shr_record (shr_record_of_loc m l) = l.
Proof. destruct l as [|[ | | ]]; reflexivity. Qed.

Lemma shr_m_of_loc m l : shr_m (shr_record_of_loc m l) = m.
Proof. destruct l as [|[ | | ]]; reflexivity. Qed.

Lemma round_nearest_even_bounds m l :
  m <= round_nearest_even m l <= m + 1.
Proof. destruct l as [|[ | | ]]; simpl; try destruct (Z.even m); lia. Qed.

Lemma fexp_normal (k : Z) : -1074 <= k - 53 -> fexp prec emax k = k - 53.
Proof. unfold fexp, SpecFloat.emin, prec, emax. lia. Qed.

Lemma shr_spec (mrs : shr_record) (e n : Z) :
  0 <= shr_m mrs -> 0 <= n ->
  shr_m (fst (shr mrs e n)) = shr_m mrs / 2 ^ n /\ snd (shr mrs e n) = e + n.
Proof.
  intros Hm Hn. destruct n as [|p|p]; cbn [shr fst snd]; try lia.
  - rewrite Z.pow_0_r, Z.div_1_r. lia.
  - split; [now apply iter_shr_1_m|reflexivity].
Qed.

Lemma Zdigits2_unique (m d : Z) :
  0 < m -> 2 ^ (d - 1) <= m < 2 ^ d -> Zdigits2 m = d.
Proof.
  intros Hm H. destruct m as [|p|p]; try lia. cbn [Zdigits2].
  now apply digits2_pos_unique.
Qed.

Lemma binary_round_aux_normal (mx ex : Z) (l : location) (n : Z) :
  0 <= n -> 2 ^ (52 + n) <= mx < 2 ^ (53 + n) ->
  -1074 <= ex + n -> ex + n < 971 ->
  exists m' e' f',
    binary_round_aux prec emax false mx ex l = S754_finite false m' e' /\
    mx / 2 ^ n <= f' <= mx / 2 ^ n + 1 /\
    2 ^ 52 <= Zpos m' < 2 ^ 53 /\
    ((Zpos m' = f' /\ e' = ex + n) \/
     (f' = 2 ^ 53 /\ Zpos m' = 2 ^ 52 /\ e' = ex + n + 1)).
Proof.
  intros Hn Hmx Hlo Hhi.
  pose proof (Z.pow_pos_nonneg 2 n ltac:(lia) Hn) as Hpn.
  pose proof (Z.pow_pos_nonneg 2 (52 + n) ltac:(lia) ltac:(lia)) as Hp52.
  assert (Hmpos : 0 < mx) by lia.
  assert (Hdig : Zdigits2 mx = 53 + n).
  { apply Zdigits2_unique; [assumption|].
    replace (53 + n - 1) with (52 + n) by lia. assumption. }
  assert (Hf : 2 ^ 52 <= mx / 2 ^ n < 2 ^ 53).
  { split.
    - apply Z.div_le_lower_bound; [assumption|].
      rewrite <- Z.pow_add_r by lia. now rewrite Z.add_comm.
    - apply Z.div_lt_upper_bound; [assumption|].
      rewrite <- Z.pow_add_r by lia. now rewrite (Z.add_comm n). }
  unfold binary_round_aux, shr_fexp. rewrite Hdig.
  rewrite fexp_normal by lia.
  replace (53 + n + ex - 53 - ex) with n by lia.
  destruct (shr_spec (shr_record_of_loc mx l) ex n) as [Hm1 He1];
    [rewrite shr_m_of_loc; lia|assumption|].
  destruct (shr (shr_record_of_loc mx l) ex n) as [mrs1 e1].
  cbn [fst snd] in Hm1, He1. rewrite shr_m_of_loc in Hm1. subst e1.
  set (f' := round_nearest_even (shr_m mrs1) (loc_of_shr_record mrs1)).
  assert (Hf' : mx / 2 ^ n <= f' <= mx / 2 ^ n + 1).
  { unfold f'. rewrite <- Hm1. apply round_nearest_even_bounds. }
  clearbody f'.
  destruct (Z_lt_le_dec f' (2 ^ 53)) as [Hlt|Hge].
  - assert (Hd' : Zdigits2 f' = 53) by (apply Zdigits2_unique; simpl; lia).
    rewrite Hd', fexp_normal by lia.
    replace (53 + (ex + n) - 53 - (ex + n)) with 0 by lia.
    cbn [shr]. rewrite shr_m_of_loc.
    destruct f' as [|pf|pf]; try (simpl in *; lia).
    replace (ex + n <=? emax - prec) with true
      by (symmetry; apply Z.leb_le; unfold emax, prec; lia).
    exists pf, (ex + n), (Zpos pf). repeat split; lia.
  - assert (f' = 2 ^ 53) by lia. subst f'.
    change (Zdigits2 (2 ^ 53)) with 54. rewrite fexp_normal by lia.
    replace (54 + (ex + n) - 53 - (ex + n)) with 1 by lia.
    cbn [shr]. change (shr_m _) with (2 ^ 52).
    replace (ex + n + 1 <=? emax - prec) with true
      by (symmetry; apply Z.leb_le; unfold emax, prec; lia).
    change (2 ^ 52) with (Zpos 4503599627370496).
    exists 4503599627370496%positive, (ex + n + 1), (2 ^ 53).
    repeat split; try lia; try (simpl; lia).
Qed.

Lemma sqrt_core_normal (m : positive) (e : Z) :
  2 ^ 52 <= Zpos m < 2 ^ 53 -> -1052 <= e <= 948 ->
  exists q l,
    SFsqrt_core_binary prec emax (Zpos m) e = (q, e / 2 - 26, l) /\
    q * q <= Zpos m * 2 ^ (e - 2 * (e / 2) + 52) < (q + 1) * (q + 1) /\
    0 <= q.
Proof.
  intros Hm He. unfold SFsqrt_core_binary.
  rewrite (Zdigits2_unique (Zpos m) 53) by (simpl; lia).
  rewrite !Z.div2_div.
  replace ((53 + e + 1) / 2) with (e / 2 + 27)
    by (replace (53 + e + 1) with (e + 27 * 2) by lia; now rewrite Z.div_add by lia).
  pose proof (Z.div_mod e 2 ltac:(lia)) as Hdm.
  pose proof (Z.mod_pos_bound e 2 ltac:(lia)) as Hmod.
  rewrite fexp_normal by lia.
  replace (Z.min (e / 2 + 27 - 53) (e / 2)) with (e / 2 - 26) by lia.
  set (s := e - 2 * (e / 2 - 26)).
  assert (Hs : s = e - 2 * (e / 2) + 52) by (unfold s; lia).
  assert (Hs52 : 52 <= s <= 53) by lia.
  destruct s as [|ps|ps] eqn:Heqs; try lia.
  rewrite Z.shiftl_mul_pow2 by lia. rewrite <- Hs.
  pose proof (Z.sqrtrem_spec (Zpos m * 2 ^ Zpos ps)) as Hspec.
  assert (Hpos : 0 <= Zpos m * 2 ^ Zpos ps)
    by (apply Z.mul_nonneg_nonneg; [lia|apply Z.pow_nonneg; lia]).
  specialize (Hspec Hpos).
  destruct (Z.sqrtrem (Zpos m * 2 ^ Zpos ps)) as [q r].
  destruct Hspec as [Heq Hr].
  eexists q, _. split; [reflexivity|]. split; [|lia]. nia.
Qed.

Lemma pow2_52 : 2 ^ 52 = 4503599627370496. Proof. reflexivity. Qed.
Lemma pow2_53 : 2 ^ 53 = 9007199254740992. Proof. reflexivity. Qed.
Lemma pow2_54 : 2 ^ 54 = 18014398509481984. Proof. reflexivity. Qed.

Lemma SFsqrt_normal (m : positive) (e : Z) :
  2 ^ 52 <= Zpos m < 2 ^ 53 -> -1052 <= e <= 948 ->
  exists R eR Q,
    SFsqrt prec emax (S754_finite false m e) = S754_finite false R eR /\
    2 ^ 52 <= Zpos R < 2 ^ 53 /\
    Q * Q <= Zpos m * 2 ^ (e - 2 * (e / 2) + 52) + 2 ^ 54 /\
    ((Zpos R = Q /\ eR = e / 2 - 26) \/
     (Q = 2 ^ 53 /\ Zpos R = 2 ^ 52 /\ eR = e / 2 - 25)).
Proof.
  intros Hm He.
  destruct (sqrt_core_normal m e Hm He) as (q & l & Hcore & Hq & Hq0).
  pose proof (Z.div_mod e 2 ltac:(lia)) as Hdm.
  pose proof (Z.mod_pos_bound e 2 ltac:(lia)) as Hmod.
  set (M' := Zpos m * 2 ^ (e - 2 * (e / 2) + 52)) in *.
  assert (HM : 2 ^ 52 * 2 ^ 52 <= M' < 2 ^ 53 * 2 ^ 53).
  { unfold M'. assert (Hc : e - 2 * (e / 2) = 0 \/ e - 2 * (e / 2) = 1) by lia.
    destruct Hc as [-> | ->]; cbn [Z.add]; rewrite ?pow2_52, ?pow2_53 in *; lia. }
  rewrite pow2_52, pow2_53 in *.
  assert (Hqr : 4503599627370496 <= q < 9007199254740992) by nia.
  unfold SFsqrt. rewrite Hcore.
  destruct (binary_round_aux_normal q (e / 2 - 26) l 0) as (R & eR & Q & Hr & HQ & HR & Hcase);
    try lia.
  rewrite Z.pow_0_r, Z.div_1_r, Z.add_0_r in *.
  rewrite pow2_52, pow2_53 in *.
  exists R, eR, Q. split; [assumption|]. split; [assumption|]. split.
  - rewrite pow2_54. nia.
  - destruct Hcase as [[H1 H2]|(H1 & H2 & H3)]; [left|right]; repeat split; lia.
Qed.

Lemma SFmul_square_normal (R : positive) (eR : Z) :
  2 ^ 52 <= Zpos R < 2 ^ 53 -> -552 <= eR <= 449 ->
  exists P eP t,
    SFmul prec emax (S754_finite false R eR) (S754_finite false R eR)
      = S754_finite false P eP /\
    2 ^ 52 <= Zpos P < 2 ^ 53 /\
    eP = 2 * eR + t /\ 52 <= t <= 54 /\
    Zpos P * 2 ^ t <= Zpos R * Zpos R + 2 ^ 53.
Proof.
  intros HR HeR. rewrite pow2_52, pow2_53 in *.
  cbn [SFmul xorb]. rewrite Pos2Z.inj_mul.
  set (r := Zpos R) in *.
  assert (Hn : exists n, 52 <= n <= 53 /\ 2 ^ (52 + n) <= r * r < 2 ^ (53 + n)).
  { destruct (Z_lt_le_dec (r * r) (2 ^ 105)) as [Hlt|Hge].
    - exists 52. split; [lia|]. change (2 ^ (52 + 52)) with (2 ^ 52 * 2 ^ 52).
      change (2 ^ (53 + 52)) with (2 ^ 105). rewrite pow2_52. nia.
    - exists 53. split; [lia|]. change (2 ^ (52 + 53)) with (2 ^ 105).
      change (2 ^ (53 + 53)) with (2 ^ 53 * 2 ^ 53). rewrite pow2_53. nia. }
  destruct Hn as (n & Hn & Hrr).
  destruct (binary_round_aux_normal (r * r) (eR + eR) loc_Exact n)
    as (P & eP & f' & Hr & Hf' & HP & Hcase); try lia.
  rewrite pow2_52, pow2_53 in *.
  assert (Hpn : 0 < 2 ^ n) by (apply Z.pow_pos_nonneg; lia).
  assert (Hdiv : r * r / 2 ^ n * 2 ^ n <= r * r).
  { rewrite Z.mul_comm. apply Z.mul_div_le. assumption. }
  assert (H253 : 2 ^ n <= 2 ^ 53) by (apply Z.pow_le_mono_r; lia).
  rewrite pow2_53 in H253.
  destruct Hcase as [[H1 H2]|(H1 & H2 & H3)].
  - exists P, eP, n. split; [exact Hr|]. repeat split; try lia.
    rewrite H1. nia.
  - exists P, eP, (n + 1). split; [exact Hr|]. repeat split; try lia.
    rewrite H2, Z.pow_add_r, Z.pow_1_r by lia. nia.
Qed.

Lemma SFdiv_normal (m P : positive) (e eP : Z) :
  2 ^ 52 <= Zpos m < 2 ^ 53 -> 2 ^ 52 <= Zpos P < 2 ^ 53 ->
  -100 <= e - eP <= 100 ->
  exists C eC n f',
    SFdiv prec emax (S754_finite false m e) (S754_finite false P eP)
      = S754_finite false C eC /\
    0 <= n <= 1 /\
    2 ^ (52 + n) <= Zpos m * 2 ^ 53 / Zpos P < 2 ^ (53 + n) /\
    Zpos m * 2 ^ 53 / Zpos P / 2 ^ n <= f' /\
    ((Zpos C = f' /\ eC = e - eP - 53 + n) \/
     (Zpos C = 2 ^ 52 /\ eC = e - eP - 53 + n + 1)).
Proof.
  intros Hm HP Hk. cbn [SFdiv xorb]. unfold SFdiv_core_binary.
  rewrite (Zdigits2_unique (Zpos m) 53) by (simpl; lia).
  rewrite (Zdigits2_unique (Zpos P) 53) by (simpl; lia).
  rewrite fexp_normal by lia.
  replace (Z.min (53 + e - (53 + eP) - 53) (e - eP)) with (e - eP - 53) by lia.
  replace (e - eP - (e - eP - 53)) with 53 by lia.
  rewrite Z.shiftl_mul_pow2 by lia.
  rewrite pow2_52, pow2_53 in *.
  set (a := Zpos m * 9007199254740992).
  pose proof (Z.div_mod a (Zpos P) ltac:(lia)) as Hdm.
  pose proof (Z.mod_pos_bound a (Zpos P) ltac:(lia)) as Hmod.
  assert (Hq : Z.div_eucl a (Zpos P) = (a / Zpos P, a mod Zpos P)).
  { unfold Z.div, Z.modulo. now destruct (Z.div_eucl a (Zpos P)). }
  rewrite Hq.
  set (q := a / Zpos P) in *. set (r := a mod Zpos P) in *.
  assert (Hqb : 4503599627370496 <= q < 18014398509481984) by (unfold a in *; nia).
  assert (Hn : exists n, 0 <= n <= 1 /\ 2 ^ (52 + n) <= q < 2 ^ (53 + n)).
  { destruct (Z_lt_le_dec q 9007199254740992).
    - exists 0. split; [lia|]. cbn [Z.add]. rewrite pow2_52, pow2_53. lia.
    - exists 1. split; [lia|]. change (2 ^ (52 + 1)) with 9007199254740992.
      change (2 ^ (53 + 1)) with 18014398509481984. lia. }
  destruct Hn as (n & Hn & Hqn).
  destruct (binary_round_aux_normal q (e - eP - 53)
              (new_location (Zpos P) r) n)
    as (C & eC & f' & Hr & Hf' & HC & Hcase); try lia.
  exists C, eC, n, f'. split; [exact Hr|]. repeat split; lia.
Qed.

Lemma SFleb_finite_pos (m1 m2 : positive) (e1 e2 : Z) :
  e1 < e2 \/ (e1 = e2 /\ Zpos m1 <= Zpos m2) ->
  SFleb (S754_finite false m1 e1) (S754_finite false m2 e2) = true.
Proof.
  intros H. unfold SFleb, SFcompare.
  destruct (Z.compare_spec e1 e2) as [Heq|Hlt|Hgt]; try reflexivity; [|lia].
  change (Pos.compare_cont Eq m1 m2) with (Pos.compare m1 m2).
  destruct (Pos.compare_spec m1 m2); try reflexivity. lia.
Qed.

Lemma quotient_lower (m P : Z) :
  2 ^ 52 <= m -> 0 < P -> P <= m + 16 -> 2 ^ 53 - 33 <= m * 2 ^ 53 / P.
Proof.
  rewrite pow2_52, pow2_53. intros Hm HP H.
  apply Z.div_le_lower_bound; [assumption|]. nia.
Qed.

Lemma quotient_lower_half (m P : Z) :
  2 ^ 52 <= m -> 0 < P -> 2 * P <= m + 16 ->
  2 ^ 54 - 66 <= m * 2 ^ 53 / P.
Proof.
  rewrite pow2_52, pow2_53, pow2_54. intros Hm HP H.
  apply Z.div_le_lower_bound; [assumption|]. nia.
Qed.

Ltac norm_pow :=
  repeat match goal with
  | |- context [2 ^ Zpos ?p] =>
      let v := eval cbv in (2 ^ Zpos p) in change (2 ^ Zpos p) with v
  | H : context [2 ^ Zpos ?p] |- _ =>
      let v := eval cbv in (2 ^ Zpos p) in change (2 ^ Zpos p) with v in H
  end.

(** The square root, squared: the product of the two roundings is at most
    a few units in the last place above the argument. *)
Lemma sqrt_square_normal (m : positive) (e : Z) :
  2 ^ 52 <= Zpos m < 2 ^ 53 -> -1052 <= e <= 948 ->
  exists P eP s T,
    SFmul prec emax (SFsqrt prec emax (S754_finite false m e))
                    (SFsqrt prec emax (S754_finite false m e))
      = S754_finite false P eP /\
    2 ^ 52 <= Zpos P < 2 ^ 53 /\
    52 <= s <= 53 /\ 52 <= T <= 56 /\ e - eP = s - T /\
    Zpos P * 2 ^ T <= Zpos m * 2 ^ s + 2 ^ 56.
Proof.
  intros Hm He.
  destruct (SFsqrt_normal m e Hm He) as (R & eR & Q & -> & HR & HQ & Hcase).
  pose proof (Z.div_mod e 2 ltac:(lia)) as Hdm.
  pose proof (Z.mod_pos_bound e 2 ltac:(lia)) as Hmod.
  assert (HeR : -552 <= eR <= 449) by lia.
  destruct (SFmul_square_normal R eR HR HeR) as (P & eP & t & -> & HP & HeP & Ht & Hb).
  set (s := e - 2 * (e / 2) + 52) in *.
  assert (Hs : s = 52 \/ s = 53) by (unfold s; lia).
  destruct Hcase as [[H1 H2]|(H1 & H2 & H3)].
  - exists P, eP, s, t. split; [reflexivity|]. split; [assumption|].
    split; [lia|]. split; [lia|]. split; [unfold s; lia|].
    rewrite H1 in Hb. norm_pow. lia.
  - exists P, eP, s, (t + 2). split; [reflexivity|]. split; [assumption|].
    split; [lia|]. split; [lia|]. split; [unfold s; lia|].
    rewrite H2 in Hb. rewrite H1 in HQ.
    rewrite Z.pow_add_r by lia. norm_pow. lia.
Qed.

Lemma self_cosine_spec (m : positive) (e : Z) :
  2 ^ 52 <= Zpos m < 2 ^ 53 -> -1052 <= e <= 948 ->
  SFleb (S754_finite false 8998192055486251 (-53))
        (SFdiv prec emax (S754_finite false m e)
           (SFmul prec emax (SFsqrt prec emax (S754_finite false m e))
                            (SFsqrt prec emax (S754_finite false m e))))
  = true.
Proof.
  intros Hm He.
  destruct (sqrt_square_normal m e Hm He)
    as (P & eP & s & T & -> & HP & Hs & HT & Hk & Hb).
  destruct (SFdiv_normal m P e eP Hm HP ltac:(lia))
    as (C & eC & n & f' & -> & Hn & Hq & Hf' & Hcase).
  apply SFleb_finite_pos.
  set (q := Zpos m * 2 ^ 53 / Zpos P) in *.
  assert (HPpos : 0 < Zpos P) by lia.
  assert (Hs' : s = 52 \/ s = 53) by lia.
  assert (HT' : T = 52 \/ T = 53 \/ T = 54 \/ T = 55 \/ T = 56) by lia.
  assert (Hn' : n = 0 \/ n = 1) by lia.
  assert (Hql : Zpos P <= Zpos m + 16 -> 2 ^ 53 - 33 <= q)
    by (intros; apply quotient_lower; lia).
  assert (Hqh : 2 * Zpos P <= Zpos m + 16 -> 2 ^ 54 - 66 <= q)
    by (intros; apply quotient_lower_half; lia).
  assert (Hhalf : 2 ^ 54 - 66 <= q -> 2 ^ 53 - 33 <= q / 2)
    by (intros; apply Z.div_le_lower_bound; norm_pow; lia).
  clearbody q.
  destruct Hs' as [-> | ->];
    destruct HT' as [-> | [-> | [-> | [-> | ->]]]];
    destruct Hn' as [-> | ->];
    norm_pow; cbn [Z.add] in *; norm_pow;
    rewrite ?Z.div_1_r in *;
    try lia.
Qed.

Lemma safe_norm_spec (x : float) :
  safe_norm x = true ->
  exists m e, Prim2SF x = S754_finite false m e /\
              (2 ^ 52 <= Zpos m < 2 ^ 53)%Z /\ (-1052 <= e <= 948)%Z.
Proof.
  unfold safe_norm. rewrite andb_true_iff, !FloatAxioms.leb_spec.
  replace (Prim2SF 0x1p-1000%float) with (S754_finite false 4503599627370496 (-1052))
    by (vm_compute; reflexivity).
  replace (Prim2SF 0x1p+1000%float) with (S754_finite false 4503599627370496 948)
    by (vm_compute; reflexivity).
  pose proof (Prim2SF_valid x) as Hv.
  destruct (Prim2SF x) as [s|s| |s m e]; intros [Hlo Hhi];
    try discriminate; try (destruct s; discriminate).
  destruct s; [discriminate|].
  unfold SFleb, SFcompare in Hlo, Hhi.
  assert (He : (-1052 <= e <= 948)%Z).
  { destruct (Z.compare_spec (-1052) e), (Z.compare_spec e 948);
      try discriminate; lia. }
  exists m, e. split; [reflexivity|]. split; [|assumption].
  cbn [SpecFloat.valid_binary bounded] in Hv.
  apply andb_true_iff in Hv. destruct Hv as [Hc _].
  unfold canonical_mantissa in Hc. apply Z.eqb_eq in Hc.
  unfold fexp, SpecFloat.emin, prec, emax in Hc.
  assert (Hd : Zpos (digits2_pos m) = 53%Z) by lia.
  pose proof (digits2_pos_bounds m) as Hb. rewrite Hd in Hb. exact Hb.
Qed.

Lemma self_cosine_bound (x : float) :
  safe_norm x = true -> PrimFloat.leb 0.999%float (self_cosine x) = true.
Proof.
  intros Hx. destruct (safe_norm_spec x Hx) as (m & e & Hsf & Hm & He).
  unfold self_cosine.
  rewrite FloatAxioms.leb_spec, FloatAxioms.div_spec, !FloatAxioms.mul_spec,
    !FloatAxioms.sqrt_spec, Hsf.
  replace (Prim2SF 0.999%float) with (S754_finite false 8998192055486251 (-53))
    by (vm_compute; reflexivity).
  now apply self_cosine_spec.
Qed.

End Binary64Rounding.

(** ** The two loops as one pass over the pairs *)

Section ScanFacts.

Variable q : ndarray.

Lemma scored_app (ps1 ps2 : list (string * ndarray)) :
  scored q (ps1 ++ ps2) =
  (l1 <- scored q ps1 ;; l2 <- scored q ps2 ;; Ok (l1 ++ l2)).
Proof.
  induction ps1 as [|[name e] ps1 IH]; simpl.
  - destruct (scored q ps2); reflexivity.
  - destruct (similarity q e); simpl; [|reflexivity].
    rewrite IH. destruct (scored q ps1); simpl; [|reflexivity].
    destruct (scored q ps2); reflexivity.
Qed.

Lemma track_app (l1 l2 : list (string * float)) (b : best) :
  track (l1 ++ l2) b = track l2 (track l1 b).
Proof. unfold track. apply fold_left_app. Qed.

Lemma scan_embeddings_scored (name : string) (embeddings : list ndarray)
  (b : best) :
  scan_embeddings q name embeddings b =
  (l <- scored q (map (pair name) embeddings) ;; Ok (track l b)).
Proof.
  revert b. induction embeddings as [|e rest IH]; intros b; simpl.
  - reflexivity.
  - destruct (similarity q e) as [s|x]; simpl; [|reflexivity].
    rewrite IH. destruct (scored q (map (pair name) rest)); reflexivity.
Qed.

Lemma scan_db_scored (db : voice_database) (b : best) :
  scan_db q db b = (l <- scored q (pairs db) ;; Ok (track l b)).
Proof.
  revert b. induction db as [|[name embeddings] db IH]; intros b; simpl.
  - reflexivity.
  - rewrite scan_embeddings_scored, scored_app.
    destruct (scored q (map (pair name) embeddings)) as [l1|x]; simpl;
      [|reflexivity].
    rewrite IH. fold (pairs db).
    destruct (scored q (pairs db)) as [l2|x]; simpl; [|reflexivity].
    now rewrite track_app.
Qed.

Lemma in_pairs (db : voice_database) (name : string) (e : ndarray) :
  In (name, e) (pairs db) <->
  exists embeddings, In (name, embeddings) db /\ In e embeddings.
Proof.
  unfold pairs. rewrite in_flat_map. split.
  - intros [[k v] [Hin Hmap]]. simpl in Hmap.
    apply in_map_iff in Hmap. destruct Hmap as [e' [Heq He]].
    inversion Heq; subst. now exists v.
  - intros [v [Hin He]]. exists (name, v). split; [assumption|].
    simpl. now apply in_map.
Qed.

(** A score list comes from the pairs, one by one. *)
Lemma scored_Ok (ps : list (string * ndarray)) (l : list (string * float)) :
  scored q ps = Ok l ->
  Forall2 (fun p ns => fst p = fst ns /\ similarity q (snd p) = Ok (snd ns))
          ps l.
Proof.
  revert l. induction ps as [|[name e] ps IH]; intros l H; simpl in H.
  - inversion H. constructor.
  - destruct (similarity q e) as [s|x] eqn:Hs; simpl in H; [|discriminate].
    destruct (scored q ps) as [l'|x] eqn:Hl; simpl in H; [|discriminate].
    inversion H; subst. constructor; auto.
Qed.

Lemma scored_In (ps : list (string * ndarray)) (l : list (string * float))
  (name : string) (s : float) :
  scored q ps = Ok l -> In (name, s) l ->
  exists e, In (name, e) ps /\ similarity q e = Ok s.
Proof.
  intros H. apply scored_Ok in H. induction H as [|[n e] [n' s'] ps l [Hn Hs] _ IH].
  - intros [].
  - simpl in Hn, Hs. subst n'. intros [Heq|Hin].
    + inversion Heq; subst. exists e. split; [now left|assumption].
    + destruct (IH Hin) as [e' [Hin' Hs']]. exists e'. split; [now right|assumption].
Qed.

Lemma In_scored (ps : list (string * ndarray)) (l : list (string * float))
  (name : string) (e : ndarray) :
  scored q ps = Ok l -> In (name, e) ps ->
  exists s, In (name, s) l /\ similarity q e = Ok s.
Proof.
  intros H. apply scored_Ok in H. induction H as [|[n e'] [n' s'] ps l [Hn Hs] _ IH].
  - intros [].
  - simpl in Hn, Hs. subst n'. intros [Heq|Hin].
    + inversion Heq; subst. exists s'. split; [now left|assumption].
    + destruct (IH Hin) as [s [Hin' Hs']]. exists s. split; [now right|assumption].
Qed.

Lemma similarity_aligned (e : ndarray) :
  shape e = shape q -> exists s, similarity q e = Ok s.
Proof.
  intros H. unfold similarity, np_dot. rewrite H, Nat.eqb_refl. simpl. eauto.
Qed.

Lemma similarity_misaligned (e : ndarray) :
  shape e <> shape q -> similarity q e = Raise ValueError.
Proof.
  intros H. unfold similarity, np_dot.
  destruct (Nat.eqb_spec (shape q) (shape e)) as [Heq|Hne]; [|reflexivity].
  now elim H.
Qed.

Lemma similarity_raises (e : ndarray) (x : exn) :
  similarity q e = Raise x -> x = ValueError.
Proof.
  unfold similarity, np_dot.
  destruct (Nat.eqb (shape q) (shape e)); simpl; congruence.
Qed.

(** All shapes agree: every score is computed. *)
Lemma scored_aligned (ps : list (string * ndarray)) :
  (forall name e, In (name, e) ps -> shape e = shape q) ->
  exists l, scored q ps = Ok l.
Proof.
  induction ps as [|[name e] ps IH]; intros H; simpl.
  - eauto.
  - destruct (similarity_aligned e) as [s Hs]; [apply (H name); now left|].
    destruct IH as [l Hl]; [intros n e' Hin; apply (H n); now right|].
    rewrite Hs, Hl. simpl. eauto.
Qed.

(** One shape disagrees: the pass raises [ValueError]. *)
Lemma scored_misaligned (ps : list (string * ndarray)) (name : string)
  (e : ndarray) :
  In (name, e) ps -> shape e <> shape q -> scored q ps = Raise ValueError.
Proof.
  intros Hin Hne. induction ps as [|[n e'] ps IH]; [destruct Hin|].
  simpl. destruct (similarity q e') as [s|x] eqn:Hs; simpl.
  - destruct Hin as [Heq|Hin].
    + inversion Heq; subst. rewrite similarity_misaligned in Hs by assumption.
      discriminate.
    + now rewrite IH.
  - f_equal. eapply similarity_raises; eassumption.
Qed.

End ScanFacts.

(** ** The running best *)

Section TrackFacts.

Import Float64Facts.

Lemma update_cases (name : string) (s : float) (b : best) :
  (PrimFloat.ltb (fst b) s = true /\ update name s b = (s, name)) \/
  (PrimFloat.ltb (fst b) s = false /\ update name s b = b).
Proof.
  unfold update, Float64.gtb. destruct (PrimFloat.ltb (fst b) s); auto.
Qed.

Lemma track_cons (name : string) (s : float) (l : list (string * float))
  (b : best) :
  track ((name, s) :: l) b = track l (update name s b).
Proof. reflexivity. Qed.

(** A score the running best is not below stays so. *)
Lemma track_mono (l : list (string * float)) (b : best) (x : float) :
  PrimFloat.ltb (fst b) x = false ->
  PrimFloat.ltb (fst (track l b)) x = false.
Proof.
  revert b. induction l as [|[name s] l IH]; intros b Hb; [exact Hb|].
  rewrite track_cons. apply IH.
  destruct (update_cases name s b) as [[Hlt ->]|[_ ->]]; [|exact Hb].
  simpl. destruct (PrimFloat.ltb s x) eqn:Hsx; [|reflexivity].
  rewrite (ltb_trans _ _ _ Hlt Hsx) in Hb. discriminate.
Qed.

(** No score of the list is strictly above the final best. *)
Lemma track_bound (l : list (string * float)) (b : best) (name : string)
  (s : float) :
  In (name, s) l -> PrimFloat.ltb (fst (track l b)) s = false.
Proof.
  revert b. induction l as [|[n0 s0] l IH]; intros b Hin; [destruct Hin|].
  rewrite track_cons. destruct Hin as [Heq|Hin]; [|now apply IH].
  inversion Heq; subst. apply track_mono.
  destruct (update_cases name s b) as [[_ ->]|[Hge ->]]; [|exact Hge].
  simpl. apply ltb_irrefl.
Qed.

(** The final best is the state the pass started from, or the first entry
    of the list that reaches the final score. *)
Lemma track_first (l : list (string * float)) (b : best) :
  track l b = b \/
  exists l1 name s l2,
    l = l1 ++ (name, s) :: l2 /\ track l b = (s, name) /\
    PrimFloat.ltb (fst b) s = true /\
    forall n' s', In (n', s') l1 -> PrimFloat.leb s s' = false.
Proof.
  revert b. induction l as [|[n0 s0] l IH]; intros b; [now left|].
  rewrite track_cons.
  destruct (update_cases n0 s0 b) as [[Hlt ->]|[Hge ->]].
  - right. destruct (IH (s0, n0)) as [Hsame|(l1 & name & s & l2 & -> & Ht & Hs & Hl1)].
    + exists [], n0, s0, l. repeat split; try assumption. intros ? ? [].
    + exists ((n0, s0) :: l1), name, s, l2. simpl in Hs.
      repeat split; try assumption.
      * now apply ltb_trans with s0.
      * intros n' s' [Heq|Hin]; [|now apply (Hl1 n')].
        inversion Heq; subst. now apply ltb_not_leb.
  - destruct (IH b) as [Hsame|(l1 & name & s & l2 & -> & Ht & Hs & Hl1)];
      [now left|right].
    exists ((n0, s0) :: l1), name, s, l2. repeat split; try assumption.
    intros n' s' [Heq|Hin]; [|now apply (Hl1 n')].
    inversion Heq; subst.
    destruct (PrimFloat.leb s s') eqn:Hle; [|reflexivity].
    rewrite (ltb_leb_trans _ _ _ Hs Hle) in Hge. discriminate.
Qed.

Lemma initial_below_threshold :
  PrimFloat.ltb (fst initial_best) threshold = true.
Proof. reflexivity. Qed.

End TrackFacts.

(** ** identify_speaker, unfolded *)

(** The concrete scenario of the specification: querying with alice's
    vector. *)
Example identify_alice :
  fst (identify_speaker (Ok (vec [1; 0]%float)) (mk_world alice_bob Absent []))
  = {| speaker := "alice"%string; confidence := 1%float |}.
Proof. vm_compute. reflexivity. Qed.

Lemma identify_nonempty (q : ndarray) (w : world) (l : list (string * float)) :
  voice_db w <> [] ->
  scored q (pairs (voice_db w)) = Ok l ->
  identify_speaker (Ok q) w =
  ({| speaker := if PrimFloat.ltb (best_score l) threshold
                 then "Unknown"%string else snd (track l initial_best);
      confidence := best_score l |}, w).
Proof.
  intros Hne Hl. unfold identify_speaker, best_score.
  destruct (voice_db w) as [|kv db] eqn:Hdb; [now elim Hne|].
  cbn [bind]. rewrite scan_db_scored, Hl. cbn [bind].
  destruct (track l initial_best) as [best_score best_match]. reflexivity.
Qed.

Lemma identify_raise (embed : result ndarray) (w : world) (x : exn) :
  voice_db w <> [] ->
  (q <- embed ;; scored q (pairs (voice_db w))) = Raise x ->
  identify_speaker embed w =
  ({| speaker := "Error"%string; confidence := 0%float |},
   print "Identification Error"%string w).
Proof.
  intros Hne Hl. unfold identify_speaker.
  destruct (voice_db w) as [|kv db] eqn:Hdb; [now elim Hne|].
  destruct embed as [q|e]; cbn [bind] in *; [|reflexivity].
  rewrite scan_db_scored, Hl. reflexivity.
Qed.

(** ** The matcher over any dot product *)

Section AnyDotFacts.

Variable dot : list float -> list float -> float.

Lemma similarity_with_aligned (q e : ndarray) :
  shape e = shape q ->
  similarity_with dot q e =
  Ok (dot (tolist q) (tolist e)
      / (np_linalg_norm_with dot q * np_linalg_norm_with dot e))%float.
Proof.
  intros H. unfold similarity_with, np_dot_with.
  now rewrite H, Nat.eqb_refl.
Qed.

(** Line 127 on a vector and itself. *)
Lemma similarity_with_self (V : ndarray) :
  similarity_with dot V V = Ok (self_cosine (dot (tolist V) (tolist V))).
Proof. now rewrite similarity_with_aligned. Qed.

Lemma scored_with_app (q : ndarray) (ps1 ps2 : list (string * ndarray)) :
  scored_with dot q (ps1 ++ ps2) =
  (l1 <- scored_with dot q ps1 ;; l2 <- scored_with dot q ps2 ;;
   Ok (l1 ++ l2)).
Proof.
  induction ps1 as [|[name e] ps1 IH]; cbn [scored_with app bind].
  - destruct (scored_with dot q ps2); reflexivity.
  - destruct (similarity_with dot q e); cbn [bind]; [|reflexivity].
    rewrite IH. destruct (scored_with dot q ps1); cbn [bind]; [|reflexivity].
    destruct (scored_with dot q ps2); reflexivity.
Qed.

Lemma scan_embeddings_with_scored (q : ndarray) (name : string)
  (embeddings : list ndarray) (b : best) :
  scan_embeddings_with dot q name embeddings b =
  (l <- scored_with dot q (map (pair name) embeddings) ;; Ok (track l b)).
Proof.
  revert b. induction embeddings as [|e rest IH]; intros b;
    cbn [scan_embeddings_with scored_with map bind].
  - reflexivity.
  - destruct (similarity_with dot q e) as [s|x]; cbn [bind]; [|reflexivity].
    rewrite IH.
    destruct (scored_with dot q (map (pair name) rest)); reflexivity.
Qed.

Lemma scan_db_with_scored (q : ndarray) (db : voice_database) (b : best) :
  scan_db_with dot q db b =
  (l <- scored_with dot q (pairs db) ;; Ok (track l b)).
Proof.
  revert b. induction db as [|[name embeddings] db IH]; intros b.
  - reflexivity.
  - cbn [scan_db_with]. change (pairs ((name, embeddings) :: db))
      with (map (pair name) embeddings ++ pairs db).
    rewrite scan_embeddings_with_scored, scored_with_app.
    destruct (scored_with dot q (map (pair name) embeddings)) as [l1|x];
      cbn [bind]; [|reflexivity].
    rewrite IH.
    destruct (scored_with dot q (pairs db)) as [l2|x]; cbn [bind];
      [|reflexivity].
    now rewrite track_app.
Qed.

Lemma scored_with_In (q : ndarray) (ps : list (string * ndarray))
  (l : list (string * float)) (name : string) (s : float) :
  scored_with dot q ps = Ok l -> In (name, s) l ->
  exists e, In (name, e) ps /\ similarity_with dot q e = Ok s.
Proof.
  revert l. induction ps as [|[n e] ps IH]; intros l H; cbn [scored_with] in H.
  - inversion H. intros [].
  - destruct (similarity_with dot q e) as [s0|x] eqn:Hs; cbn [bind] in H;
      [|discriminate].
    destruct (scored_with dot q ps) as [l'|x]; cbn [bind] in H; [|discriminate].
    inversion H; subst. intros [Heq|Hin].
    + inversion Heq; subst. exists e. split; [now left|assumption].
    + destruct (IH l' eq_refl Hin) as (e' & He' & Hs').
      exists e'. split; [now right|assumption].
Qed.

Lemma In_scored_with (q : ndarray) (ps : list (string * ndarray))
  (l : list (string * float)) (name : string) (e : ndarray) :
  scored_with dot q ps = Ok l -> In (name, e) ps ->
  exists s, In (name, s) l /\ similarity_with dot q e = Ok s.
Proof.
  revert l. induction ps as [|[n e0] ps IH]; intros l H; cbn [scored_with] in H.
  - intros [].
  - destruct (similarity_with dot q e0) as [s0|x] eqn:Hs; cbn [bind] in H;
      [|discriminate].
    destruct (scored_with dot q ps) as [l'|x]; cbn [bind] in H; [|discriminate].
    inversion H; subst. intros [Heq|Hin].
    + inversion Heq; subst. exists s0. split; [now left|assumption].
    + destruct (IH l' eq_refl Hin) as (s & Hin' & Hs').
      exists s. split; [now right|assumption].
Qed.

Lemma scored_with_aligned (q : ndarray) (ps : list (string * ndarray)) :
  (forall name e, In (name, e) ps -> shape e = shape q) ->
  exists l, scored_with dot q ps = Ok l.
Proof.
  induction ps as [|[name e] ps IH]; intros H; cbn [scored_with].
  - eauto.
  - rewrite similarity_with_aligned by (apply (H name); now left).
    destruct IH as [l Hl]; [intros n e' Hin; apply (H n); now right|].
    rewrite Hl. cbn [bind]. eauto.
Qed.

Lemma identify_with_nonempty (q : ndarray) (w : world)
  (l : list (string * float)) :
  voice_db w <> [] ->
  scored_with dot q (pairs (voice_db w)) = Ok l ->
  identify_speaker_with dot (Ok q) w =
  ({| speaker := if PrimFloat.ltb (best_score l) threshold
                 then "Unknown"%string else snd (track l initial_best);
      confidence := best_score l |}, w).
Proof.
  intros Hne Hl. unfold identify_speaker_with, best_score.
  destruct (voice_db w) as [|kv db] eqn:Hdb; [now elim Hne|].
  cbn [bind]. rewrite scan_db_with_scored, Hl. cbn [bind].
  destruct (track l initial_best) as [best_score best_match]. reflexivity.
Qed.

End AnyDotFacts.

(** The matcher of the first part is the one over the left-to-right sum. *)
Lemma scan_db_inner (q : ndarray) (db : voice_database) (b : best) :
  scan_db_with inner_dot q db b = scan_db q db b.
Proof.
  revert b. induction db as [|[name embeddings] db IH]; intros b;
    [reflexivity|]. cbn [scan_db_with scan_db].
  assert (H : forall b0, scan_embeddings_with inner_dot q name embeddings b0
                         = scan_embeddings q name embeddings b0).
  { induction embeddings as [|e rest IHe]; intros b0; [reflexivity|].
    cbn [scan_embeddings_with scan_embeddings].
    change (similarity_with inner_dot q e) with (similarity q e).
    destruct (similarity q e); cbn [bind]; [apply IHe|reflexivity]. }
  rewrite H. destruct (scan_embeddings q name embeddings b); cbn [bind];
    [apply IH|reflexivity].
Qed.

Lemma identify_speaker_inner (embed : result ndarray) (w : world) :
  identify_speaker_with inner_dot embed w = identify_speaker embed w.
Proof.
  unfold identify_speaker_with, identify_speaker.
  destruct (voice_db w) as [|kv db]; [reflexivity|].
  destruct embed as [q|x]; cbn [bind]; [|reflexivity].
  now rewrite scan_db_inner.
Qed.

(** ** Dictionaries *)

Section DictFacts.

Context {V : Type}.

Lemma dict_get_In (k : string) (v : V) (d : dict V) :
  dict_get k d = Some v -> In (k, v) d.
Proof.
  induction d as [|[k' v'] d IH]; simpl; [discriminate|].
  destruct (String.eqb_spec k k') as [->|Hne].
  - intros H. inversion H. now left.
  - intros H. right. auto.
Qed.

Lemma dict_get_None (k : string) (d : dict V) :
  dict_get k d = None <-> ~ In k (keys d).
Proof.
  induction d as [|[k' v'] d IH]; simpl; [tauto|].
  destruct (String.eqb_spec k k') as [->|Hne].
  - split; [discriminate|]. intros H. elim H. now left.
  - rewrite IH. split; [intros H [Heq|Hin]; [congruence|tauto]|tauto].
Qed.

Lemma dict_setitem_fresh (k : string) (v : V) (d : dict V) :
  ~ In k (keys d) -> dict_setitem k v d = d ++ [(k, v)].
Proof.
  induction d as [|[k' v'] d IH]; simpl; intros H; [reflexivity|].
  destruct (String.eqb_spec k k') as [->|Hne]; [elim H; now left|].
  rewrite IH; [reflexivity|tauto].
Qed.

Lemma dict_get_setitem (k : string) (v : V) (d : dict V) :
  dict_get k (dict_setitem k v d) = Some v.
Proof.
  induction d as [|[k' v'] d IH]; simpl.
  - now rewrite String.eqb_refl.
  - destruct (String.eqb_spec k k') as [->|Hne]; simpl.
    + now rewrite String.eqb_refl.
    + destruct (String.eqb_spec k k'); [contradiction|assumption].
Qed.

Lemma dict_get_setitem_other (k o : string) (v : V) (d : dict V) :
  o <> k -> dict_get o (dict_setitem k v d) = dict_get o d.
Proof.
  intros Hne. induction d as [|[k' v'] d IH]; simpl.
  - destruct (String.eqb_spec o k); [contradiction|reflexivity].
  - destruct (String.eqb_spec k k') as [->|Hk]; simpl.
    + destruct (String.eqb_spec o k'); [contradiction|reflexivity].
    + now rewrite IH.
Qed.

Lemma dict_setitem_In (k n : string) (v0 v : V) (d : dict V) :
  In (n, v) (dict_setitem k v0 d) -> In (n, v) d \/ (n = k /\ v = v0).
Proof.
  induction d as [|[k' v'] d IH]; simpl.
  - intros [H|[]]. inversion H. auto.
  - destruct (String.eqb_spec k k') as [->|Hk]; simpl.
    + intros [H|H]; [inversion H; auto|auto].
    + intros [H|H]; [auto|]. destruct (IH H); auto.
Qed.

(** A comprehension over a dictionary with distinct keys keeps the order
    and maps the values. *)
Lemma fold_setitem_distinct {U : Type} (f : U -> V) (d : dict U)
  (acc : dict V) :
  NoDup (keys d) -> (forall k, In k (keys d) -> ~ In k (keys acc)) ->
  fold_left (fun a kv => dict_setitem (fst kv) (f (snd kv)) a) d acc =
  acc ++ map (fun kv => (fst kv, f (snd kv))) d.
Proof.
  revert acc. induction d as [|[k u] d IH]; intros acc Hnd Hfresh; simpl.
  - now rewrite app_nil_r.
  - inversion Hnd as [|? ? Hk Hnd']; subst.
    rewrite dict_setitem_fresh by (apply Hfresh; now left).
    rewrite IH; [now rewrite <- app_assoc| assumption |].
    intros k' Hin. unfold keys. rewrite map_app, in_app_iff. simpl.
    intros [H|[H|[]]].
    + apply (Hfresh k'); [now right|exact H].
    + subst. contradiction.
Qed.

End DictFacts.

Lemma dict_comprehension_wf {U V : Type} (f : U -> V) (d : dict U) :
  dict_wf d ->
  dict_comprehension f d = map (fun kv => (fst kv, f (snd kv))) d.
Proof.
  intros Hwf. unfold dict_comprehension.
  rewrite fold_setitem_distinct; [reflexivity|exact Hwf|].
  intros k _ [].
Qed.

Lemma keys_comprehension {U V : Type} (f : U -> V) (d : dict U) :
  dict_wf d -> keys (dict_comprehension f d) = keys d.
Proof.
  intros Hwf. rewrite dict_comprehension_wf by assumption.
  unfold keys. rewrite map_map. reflexivity.
Qed.

Lemma json_load_wf (text : json_object) :
  dict_wf text -> json_load text = text.
Proof.
  intros Hwf. change (json_load text) with (dict_comprehension (fun v => v) text).
  rewrite dict_comprehension_wf by assumption.
  rewrite <- (map_id text) at 2. apply map_ext. now intros [k v].
Qed.

Lemma np_array_tolist (v : list ndarray) : map np_array (map tolist v) = v.
Proof.
  rewrite map_map. rewrite <- (map_id v) at 2. apply map_ext. now intros [l].
Qed.

(** Reading back what [save_db] wrote. *)
Lemma load_serialized (db : voice_database) :
  dict_wf db ->
  dict_comprehension (map np_array)
    (json_load (dict_comprehension (map tolist) db)) = db.
Proof.
  intros Hwf.
  assert (Hs : dict_wf (dict_comprehension (map tolist) db)).
  { unfold dict_wf. now rewrite keys_comprehension. }
  rewrite json_load_wf by assumption.
  rewrite dict_comprehension_wf by assumption.
  rewrite dict_comprehension_wf by assumption.
  rewrite map_map. rewrite <- (map_id db) at 2. apply map_ext.
  intros [k v]. simpl. now rewrite np_array_tolist.
Qed.

(** ** Enrolment *)

Lemma dict_append_present {A : Type} (k : string) (e : A) (d : dict (list A))
  (v : list A) :
  dict_get k d = Some v ->
  exists d',
    dict_append k e d = Ok d' /\
    dict_get k d' = Some (v ++ [e]) /\
    (forall o, o <> k -> dict_get o d' = dict_get o d) /\
    keys d' = keys d /\
    (forall n x, In (n, x) d' -> In (n, x) d \/ (n = k /\ x = v ++ [e])).
Proof.
  induction d as [|[k' v'] d IH]; simpl; [discriminate|].
  destruct (String.eqb_spec k k') as [->|Hne].
  - intros H. inversion H; subst. exists ((k', v ++ [e]) :: d). simpl.
    rewrite String.eqb_refl. repeat split; try reflexivity.
    + intros o Ho. destruct (String.eqb_spec o k'); [contradiction|reflexivity].
    + intros n x [Heq|Hin]; [inversion Heq; auto|auto].
  - intros H. destruct (IH H) as (d' & Happ & Hget & Hother & Hkeys & Hin).
    exists ((k', v') :: d'). rewrite Happ. simpl.
    destruct (String.eqb_spec k k') as [Hkk|_]; [contradiction|].
    repeat split; try assumption.
    + intros o Ho. destruct (String.eqb o k'); [reflexivity|auto].
    + now rewrite Hkeys.
    + intros n x [Heq|Hx]; [auto|]. destruct (Hin n x Hx); auto.
Qed.

Lemma dict_append_fresh {A : Type} (k : string) (e : A) (d : dict (list A))
  (v : list A) :
  ~ In k (keys d) ->
  dict_append k e (d ++ [(k, v)]) = Ok (d ++ [(k, v ++ [e])]).
Proof.
  induction d as [|[k' v'] d IH]; simpl; intros H.
  - now rewrite String.eqb_refl.
  - destruct (String.eqb_spec k k') as [->|Hne]; [elim H; now left|].
    rewrite IH by tauto. reflexivity.
Qed.

Lemma dict_get_app_fresh {A : Type} (k o : string) (v : A) (d : dict A) :
  ~ In k (keys d) ->
  dict_get o (d ++ [(k, v)]) = if String.eqb o k then Some v else dict_get o d.
Proof.
  intros Hk. induction d as [|[k' v'] d IH]; simpl.
  - reflexivity.
  - simpl in Hk. destruct (String.eqb_spec o k') as [->|Hne].
    + destruct (String.eqb_spec k' k); [subst; tauto|reflexivity].
    + apply IH. tauto.
Qed.

(** What one enrolment with a vector does to the dictionary. *)
Lemma enroll_speaker_Ok (name : string) (e : ndarray) (d : disk) (w : world) :
  exists db2,
    enroll_speaker name (Ok e) d w =
      (enroll_outcome name d, after_save d (set_voice_db db2 w)) /\
    dict_get name db2 = Some (enrolled name (voice_db w) ++ [e]) /\
    (forall o, o <> name -> dict_get o db2 = dict_get o (voice_db w)) /\
    keys db2 = (if dict_contains name (voice_db w) then keys (voice_db w)
                else keys (voice_db w) ++ [name]) /\
    (forall n x, In (n, x) db2 ->
       In (n, x) (voice_db w) \/
       (n = name /\ x = enrolled name (voice_db w) ++ [e])).
Proof.
  unfold enroll_speaker, enrolled, dict_contains.
  destruct (dict_get name (voice_db w)) as [v|] eqn:Hget; simpl negb; cbv iota.
  - destruct (dict_append_present name e _ v Hget)
      as (db2 & Happ & Hg & Hother & Hkeys & Hin).
    exists db2. rewrite Happ. repeat split; try assumption.
    destruct d; reflexivity.
  - apply dict_get_None in Hget.
    rewrite dict_setitem_fresh by assumption.
    rewrite dict_append_fresh by assumption.
    exists (voice_db w ++ [(name, [] ++ [e])]). repeat split.
    + destruct d; reflexivity.
    + rewrite dict_get_app_fresh by assumption. now rewrite String.eqb_refl.
    + intros o Ho. rewrite dict_get_app_fresh by assumption.
      destruct (String.eqb_spec o name); [contradiction|reflexivity].
    + unfold keys. now rewrite map_app.
    + intros n x Hin. apply in_app_iff in Hin. destruct Hin as [Hin|[Heq|[]]].
      * now left.
      * inversion Heq. now right.
Qed.

(** * The claims *)

Section Identification.

Import Float64Facts.

(** A split of the score list is a split of the pairs. *)
Lemma scored_split (q : ndarray) (ps : list (string * ndarray))
  (l1 l2 : list (string * float)) (name : string) (s : float) :
  scored q ps = Ok (l1 ++ (name, s) :: l2) ->
  exists ps1 e ps2,
    ps = ps1 ++ (name, e) :: ps2 /\ similarity q e = Ok s /\
    forall n' e' s', In (n', e') ps1 -> similarity q e' = Ok s' ->
                     In (n', s') l1.
Proof.
  revert ps. induction l1 as [|[n0 s0] l1 IH]; intros ps H.
  - destruct ps as [|[n e] ps]; simpl in H; [discriminate|].
    destruct (similarity q e) as [s'|x] eqn:Hs; simpl in H; [|discriminate].
    destruct (scored q ps) as [l'|x]; simpl in H; [|discriminate].
    inversion H; subst. exists [], e, ps. repeat split; try assumption.
    intros ? ? ? [].
  - destruct ps as [|[n e] ps]; simpl in H; [discriminate|].
    destruct (similarity q e) as [s'|x] eqn:Hs; simpl in H; [|discriminate].
    destruct (scored q ps) as [l'|x] eqn:Hl; simpl in H; [|discriminate].
    inversion H; subst.
    destruct (IH ps Hl) as (ps1 & e1 & ps2 & -> & Hs1 & Hin1).
    exists ((n0, e) :: ps1), e1, ps2. repeat split; try assumption.
    intros n' e' s' [Heq|Hin] Hs'.
    + inversion Heq; subst. left. congruence.
    + right. eauto.
Qed.

(** The best score is the initial -1.0 or the score of an entry. *)
Lemma best_score_cases (l : list (string * float)) :
  track l initial_best = initial_best \/
  exists l1 l2,
    l = l1 ++ track_entry l :: l2 /\
    PrimFloat.ltb (-1)%float (best_score l) = true /\
    forall n' s', In (n', s') l1 -> PrimFloat.leb (best_score l) s' = false.
Proof.
  unfold track_entry, best_score.
  destruct (track_first l initial_best)
    as [Hsame|(l1 & name & s & l2 & Hl & Ht & Hs & Hl1)]; [now left|right].
  exists l1, l2. rewrite Ht. simpl in *. repeat split; assumption.
Qed.

(** C1, as stated, fails: alice is the only enrolled speaker and so attains
    the maximum (0.0) for the query [0, 1], but the speaker returned is not
    alice. *)
Lemma identify_argmax_counterexample :
  let db := [("alice"%string, [vec [1; 0]%float])] in
  let q := vec [0; 1]%float in
  db <> [] /\
  scored q (pairs db) = Ok [("alice"%string, 0%float)] /\
  speaker (fst (identify_speaker (Ok q) (mk_world db Absent [])))
    <> "alice"%string.
Proof. repeat split; [discriminate|discriminate]. Qed.

(** C1 (amended). For a non-empty database and a query for which no
    similarity raises, the confidence returned is a running best that no
    (speaker, vector) pair scores strictly above; and when that best is not
    below the threshold 0.70, the speaker returned is the speaker of the
    first pair in iteration order whose score is the best one: every pair
    before it scores strictly less (or NaN), so on a tie the pair met first
    is kept. *)
Theorem identify_first_best (q : ndarray) (w : world)
  (l : list (string * float)) :
  voice_db w <> [] ->
  scored q (pairs (voice_db w)) = Ok l ->
  let r := fst (identify_speaker (Ok q) w) in
  (forall name e s,
      In (name, e) (pairs (voice_db w)) -> similarity q e = Ok s ->
      Float64.gtb s (confidence r) = false) /\
  (PrimFloat.ltb (confidence r) threshold = false ->
   exists ps1 e ps2,
     pairs (voice_db w) = ps1 ++ (speaker r, e) :: ps2 /\
     similarity q e = Ok (confidence r) /\
     forall name e' s',
       In (name, e') ps1 -> similarity q e' = Ok s' ->
       PrimFloat.leb (confidence r) s' = false).
Proof.
  intros Hne Hl r. subst r. rewrite (identify_nonempty q w l Hne Hl).
  cbn [fst speaker confidence]. split.
  - intros name e s Hin Hs.
    destruct (In_scored q _ _ name e Hl Hin) as (s0 & Hin0 & Hs0).
    assert (s0 = s) by congruence. subst s0.
    unfold Float64.gtb, best_score. now apply track_bound with name.
  - intros Hth. rewrite Hth.
    destruct (best_score_cases l) as [Hinit|(l1 & l2 & Hsplit & _ & Hl1)].
    + unfold best_score in Hth. rewrite Hinit in Hth. discriminate.
    + unfold track_entry in Hsplit. rewrite Hsplit in Hl.
      destruct (scored_split q _ _ _ _ _ Hl) as (ps1 & e & ps2 & Hps & Hs & Hin1).
      exists ps1, e, ps2. repeat split; try assumption.
      intros name e' s' Hin Hs'. apply (Hl1 name). eauto.
Qed.

(** Two speakers enrolled with the same vector: the one enrolled first is
    returned. *)
Lemma identify_first_best_witness :
  let w := mk_world [("alice"%string, [vec [1; 0]%float]);
                     ("bob"%string, [vec [1; 0]%float])] Absent [] in
  let q := vec [1; 0]%float in
  fst (identify_speaker (Ok q) w)
    = {| speaker := "alice"%string; confidence := 1%float |} /\
  exists ps1 e ps2,
    pairs (voice_db w)
      = ps1 ++ (speaker (fst (identify_speaker (Ok q) w)), e) :: ps2 /\
    similarity q e = Ok (confidence (fst (identify_speaker (Ok q) w))) /\
    forall name e' s',
      In (name, e') ps1 -> similarity q e' = Ok s' ->
      PrimFloat.leb (confidence (fst (identify_speaker (Ok q) w))) s' = false.
Proof.
  intros w q. split; [reflexivity|].
  apply (identify_first_best q w [("alice"%string, 1%float); ("bob"%string, 1%float)]);
    [discriminate|reflexivity|reflexivity].
Defined.

(** C2, as stated, fails. The sentinel is spelled "Unknown": for alice =
    [1, 0] and the query [0, 1] the best score 0.0 is below 0.70 and the
    result is not ("unknown", 0.0). And the confidence is the running best,
    which starts at -1.0: the only score of [1, 1, 1] against [-1, -1, -1]
    rounds to -1.0000000000000002, strictly below the -1.0 that is
    returned. *)
Lemma identify_unknown_counterexample :
  let w := mk_world [("alice"%string, [vec [1; 0]%float])] Absent [] in
  let q := vec [0; 1]%float in
  let w2 := mk_world [("alice"%string, [vec [-1; -1; -1]%float])] Absent [] in
  let q2 := vec [1; 1; 1]%float in
  scored q (pairs (voice_db w)) = Ok [("alice"%string, 0%float)] /\
  PrimFloat.ltb 0%float threshold = true /\
  fst (identify_speaker (Ok q) w)
    <> {| speaker := "unknown"%string; confidence := 0%float |} /\
  scored q2 (pairs (voice_db w2))
    = Ok [("alice"%string, (-0x1.0000000000001p+0)%float)] /\
  PrimFloat.ltb (-0x1.0000000000001p+0)%float threshold = true /\
  fst (identify_speaker (Ok q2) w2)
    = {| speaker := "Unknown"%string; confidence := (-1)%float |} /\
  PrimFloat.ltb (-0x1.0000000000001p+0)%float
    (confidence (fst (identify_speaker (Ok q2) w2))) = true.
Proof. repeat split. discriminate. Qed.

(** C2 (amended). For a non-empty database and a query for which no
    similarity raises: the best score is the running best kept by strict
    greater-than from the initial -1.0 (no pair scores above it; it is -1.0
    or the score of an enrolled pair), and when it is strictly less than
    0.70 the result is the sentinel "Unknown" with that score itself as the
    confidence, the database and the file left as they were. *)
Theorem identify_below_threshold (q : ndarray) (w : world)
  (l : list (string * float)) :
  voice_db w <> [] ->
  scored q (pairs (voice_db w)) = Ok l ->
  PrimFloat.ltb (best_score l) threshold = true ->
  identify_speaker (Ok q) w =
    ({| speaker := "Unknown"%string; confidence := best_score l |}, w) /\
  (forall name s, In (name, s) l ->
                  Float64.gtb s (best_score l) = false) /\
  (best_score l = (-1)%float \/ exists name, In (name, best_score l) l).
Proof.
  intros Hne Hl Hth. rewrite (identify_nonempty q w l Hne Hl), Hth.
  repeat split.
  - intros name s Hin. unfold Float64.gtb, best_score.
    now apply track_bound with name.
  - destruct (best_score_cases l) as [Hinit|(l1 & l2 & Hsplit & _)].
    + left. unfold best_score. now rewrite Hinit.
    + right. exists (snd (track l initial_best)).
      change (In (track_entry l) l). rewrite Hsplit at 2. apply in_elt.
Qed.

Lemma identify_below_threshold_witness :
  let w := mk_world alice_bob Absent [] in
  let q := vec [-3; -4]%float in
  identify_speaker (Ok q) w =
    ({| speaker := "Unknown"%string; confidence := (-0.6)%float |}, w).
Proof.
  intros w q.
  refine (proj1 (identify_below_threshold q w
           [("alice"%string, (-0.6)%float); ("bob"%string, (-0.8)%float)]
           _ _ _)); [discriminate|reflexivity|reflexivity].
Defined.

(** C3, as stated, fails on the sentinel: on the empty database the
    speaker returned is spelled "Unknown". *)
Lemma identify_empty_counterexample :
  fst (identify_speaker (Ok (vec [1; 0]%float)) (mk_world [] Absent []))
    <> {| speaker := "unknown"%string; confidence := 0%float |}.
Proof. discriminate. Qed.

(** C3 (amended). On an empty database the result is ("Unknown", 0.0)
    whatever the query is, also when the embedding provider fails: the
    test of line 103 returns before the query embedding is obtained and
    before any similarity is computed, and nothing is printed. *)
Theorem identify_empty (embed : result ndarray) (w : world) :
  voice_db w = [] ->
  identify_speaker embed w =
    ({| speaker := "Unknown"%string; confidence := 0%float |}, w).
Proof. intros H. unfold identify_speaker. now rewrite H. Qed.

Lemma identify_empty_witness :
  identify_speaker (Raise ProviderError) (mk_world [] Malformed []) =
    ({| speaker := "Unknown"%string; confidence := 0%float |},
     mk_world [] Malformed []).
Proof. apply identify_empty. reflexivity. Defined.

(** C4, as stated, fails on a zero norm: numpy divides by zero without
    raising. A zero query against alice, or a query against an enrolled
    zero vector, scores NaN, which is never greater than the running best:
    the result is ("Unknown", -1.0), nothing is printed, and the result is
    not the error result. *)
Lemma identify_zero_norm_counterexample :
  let alice := mk_world [("alice"%string, [vec [1; 0]%float])] Absent [] in
  let zero := mk_world [("alice"%string, [vec [0; 0]%float])] Absent [] in
  np_linalg_norm (vec [0; 0]%float) = 0%float /\
  similarity (vec [0; 0]%float) (vec [1; 0]%float) = Ok nan /\
  similarity (vec [1; 0]%float) (vec [0; 0]%float) = Ok nan /\
  identify_speaker (Ok (vec [0; 0]%float)) alice =
    ({| speaker := "Unknown"%string; confidence := (-1)%float |}, alice) /\
  identify_speaker (Ok (vec [1; 0]%float)) zero =
    ({| speaker := "Unknown"%string; confidence := (-1)%float |}, zero) /\
  speaker (fst (identify_speaker (Ok (vec [0; 0]%float)) alice))
    <> "error"%string /\
  speaker (fst (identify_speaker (Ok (vec [0; 0]%float)) alice))
    <> "Error"%string.
Proof. repeat split; discriminate. Qed.

(** C4 (amended). On a non-empty database, identify returns the result
    ("Error", 0.0) and prints the problem, and raises nothing, whenever the
    computation raises: when the embedding provider fails, or when an
    enrolled vector has not the dimension of the query, so that [np.dot]
    raises. When all dimensions agree no similarity raises, zero norms
    included, and the result is the one of the scan. *)
Theorem identify_error (w : world) :
  voice_db w <> [] ->
  (forall x, identify_speaker (Raise x) w =
     ({| speaker := "Error"%string; confidence := 0%float |},
      print "Identification Error"%string w)) /\
  (forall q name embeddings e,
     In (name, embeddings) (voice_db w) -> In e embeddings ->
     shape e <> shape q ->
     identify_speaker (Ok q) w =
       ({| speaker := "Error"%string; confidence := 0%float |},
        print "Identification Error"%string w)) /\
  (forall q, aligned q (voice_db w) ->
     exists l, scored q (pairs (voice_db w)) = Ok l /\
     identify_speaker (Ok q) w =
       ({| speaker := if PrimFloat.ltb (best_score l) threshold
                      then "Unknown"%string else snd (track l initial_best);
           confidence := best_score l |}, w)).
Proof.
  intros Hne. repeat split.
  - intros x. now apply identify_raise with x.
  - intros q name embeddings e Hin He Hshape.
    apply identify_raise with ValueError; [assumption|]. cbn [bind].
    apply scored_misaligned with name e; [|assumption].
    apply in_pairs. eauto.
  - intros q Hal. destruct (scored_aligned q (pairs (voice_db w))) as [l Hl].
    + intros name e Hin. apply in_pairs in Hin.
      destruct Hin as (embeddings & Hin & He). eapply Hal; eassumption.
    + exists l. split; [assumption|]. now apply identify_nonempty.
Qed.

Lemma identify_error_witness :
  let w := mk_world alice_bob Absent [] in
  identify_speaker (Ok (vec [1; 0; 0]%float)) w =
    ({| speaker := "Error"%string; confidence := 0%float |},
     print "Identification Error"%string w).
Proof.
  intros w.
  refine (proj1 (proj2 (identify_error w _)) (vec [1; 0; 0]%float)
            "bob"%string [vec [0; 1]%float] (vec [0; 1]%float) _ _ _).
  - discriminate.
  - right. left. reflexivity.
  - left. reflexivity.
  - discriminate.
Defined.

(** The only effect of identify on the state is a possible line on the
    standard output. *)
Lemma identify_world (embed : result ndarray) (w : world) :
  snd (identify_speaker embed w) = w \/
  snd (identify_speaker embed w) = print "Identification Error"%string w.
Proof.
  unfold identify_speaker. destruct (voice_db w) as [|kv db]; [now left|].
  destruct (query_embedding <- embed ;;
            scan_db query_embedding (kv :: db) initial_best)
    as [[best_score best_match]|x]; [now left|now right].
Qed.

(** C9. Whatever the embedding provider gives and whatever the state is,
    identify leaves the in-memory database and the embeddings file as they
    were: only a line on the standard output may be added. *)
Theorem identify_preserves_db (embed : result ndarray) (w : world) :
  voice_db (snd (identify_speaker embed w)) = voice_db w /\
  embeddings_file (snd (identify_speaker embed w)) = embeddings_file w.
Proof.
  destruct (identify_world embed w) as [-> | ->]; split; reflexivity.
Qed.

End Identification.

Section Persistence.

Lemma keys_setitem {V : Type} (k : string) (v : V) (d : dict V) :
  keys (dict_setitem k v d) =
  if dict_contains k d then keys d else keys d ++ [k].
Proof.
  unfold dict_contains. induction d as [|[k' v'] d IH]; simpl; [reflexivity|].
  destruct (String.eqb_spec k k') as [->|Hne]; simpl; [reflexivity|].
  rewrite IH. now destruct (dict_get k d).
Qed.

Lemma dict_contains_keys {V : Type} (k : string) (d : dict V) :
  dict_contains k d = false <-> ~ In k (keys d).
Proof.
  unfold dict_contains. rewrite <- dict_get_None.
  destruct (dict_get k d); split; congruence.
Qed.

Lemma dict_setitem_wf {V : Type} (k : string) (v : V) (d : dict V) :
  dict_wf d -> dict_wf (dict_setitem k v d).
Proof.
  unfold dict_wf. rewrite keys_setitem.
  destruct (dict_contains k d) eqn:Hc; [auto|]. intros Hwf.
  apply dict_contains_keys in Hc.
  rewrite <- (rev_involutive (keys d ++ [k])). apply NoDup_rev.
  rewrite rev_app_distr. simpl. constructor.
  - now rewrite <- in_rev.
  - now apply NoDup_rev.
Qed.

(** Every dictionary a comprehension or [json.load] builds has distinct
    keys. *)
Lemma dict_comprehension_is_wf {U V : Type} (f : U -> V) (d : dict U) :
  dict_wf (dict_comprehension f d).
Proof.
  unfold dict_comprehension.
  assert (H : forall acc : dict V, dict_wf acc ->
            dict_wf (fold_left
              (fun a kv => dict_setitem (fst kv) (f (snd kv)) a) d acc)).
  { induction d as [|kv d IH]; intros acc Hacc; simpl; [assumption|].
    apply IH. now apply dict_setitem_wf. }
  apply H. constructor.
Qed.

Lemma load_db_wf (w : world) :
  dict_wf (voice_db w) -> dict_wf (voice_db (load_db w)).
Proof.
  unfold load_db. destruct (embeddings_file w); simpl; auto.
  intros _. apply dict_comprehension_is_wf.
Qed.

Lemma enroll_speaker_wf (name : string) (embed : result ndarray) (d : disk)
  (w : world) :
  dict_wf (voice_db w) ->
  dict_wf (voice_db (snd (enroll_speaker name embed d w))).
Proof.
  intros Hwf. destruct embed as [e|x]; [|exact Hwf].
  destruct (enroll_speaker_Ok name e d w) as (db2 & -> & _ & _ & Hkeys & _).
  assert (Hdb2 : dict_wf db2).
  { unfold dict_wf. rewrite Hkeys. rewrite <- keys_setitem with (v := []).
    now apply dict_setitem_wf. }
  destruct d; exact Hdb2.
Qed.

(** The keys of the database are distinct in every state of a run. *)
Lemma reachable_wf (w : world) : reachable w -> dict_wf (voice_db w).
Proof.
  induction 1 as [f|name embed d w _ IH|embed w _ IH].
  - unfold startup. apply load_db_wf. constructor.
  - now apply enroll_speaker_wf.
  - unfold identify_speaker. destruct (voice_db w) eqn:Hdb.
    + simpl. rewrite Hdb. constructor.
    + rewrite <- Hdb in *.
      destruct (query_embedding <- embed ;; scan_db query_embedding (voice_db w) initial_best)
        as [[? ?]|?]; exact IH.
Qed.

(** C5. A database whose keys are distinct, as those of a Python dict
    are, is read back as it was saved: after a [save_db] that succeeds,
    [load_db] in any process state that sees the written file sets
    [voice_db] to the database that was saved. This holds for every such
    database, those with a speaker who has a vector of a consistent
    dimension included. *)
Theorem save_load_roundtrip (w w' : world) :
  dict_wf (voice_db w) ->
  embeddings_file w' = embeddings_file (snd (save_db WriteOk w)) ->
  fst (save_db WriteOk w) = Ok tt /\
  voice_db (load_db w') = voice_db w.
Proof.
  intros Hwf Hfile. split; [reflexivity|].
  unfold load_db. rewrite Hfile. simpl.
  now apply load_serialized.
Qed.

Lemma save_load_roundtrip_witness :
  let w := mk_world alice_bob Absent [] in
  voice_db (load_db (module_start (embeddings_file (snd (save_db WriteOk w)))))
    = alice_bob.
Proof.
  intros w.
  refine (proj2 (save_load_roundtrip w
            (module_start (embeddings_file (snd (save_db WriteOk w)))) _ _)).
  - repeat constructor; simpl; intuition discriminate.
  - reflexivity.
Defined.

(** C7. At startup [voice_db] is the empty dictionary of line 40 when
    [load_db] runs. With no embeddings file it stays empty and nothing is
    printed; with a file whose content makes the body of the try raise, the
    problem is printed and [voice_db] stays empty. [load_db] returns
    normally in both cases and leaves the file as it is. *)
Theorem load_db_without_database (f : file_state) :
  f = Absent \/ f = Malformed ->
  voice_db (startup f) = [] /\
  embeddings_file (startup f) = f /\
  stdout (startup f) =
    match f with
    | Malformed => ["Error loading DB"%string]
    | _ => []
    end.
Proof. intros [-> | ->]; repeat split. Qed.

Lemma load_db_without_database_witness :
  voice_db (startup Malformed) = [] /\
  embeddings_file (startup Malformed) = Malformed /\
  stdout (startup Malformed) = ["Error loading DB"%string].
Proof. apply (load_db_without_database Malformed). right. reflexivity. Defined.

End Persistence.

Section Enrolment.

Import Float64Facts.

Lemma voice_db_after_save (d : disk) (w : world) :
  voice_db (after_save d w) = voice_db w.
Proof. now destruct d. Qed.

(** After a save that succeeded a restart reads the saved database. *)
Lemma persisted_after_write (w : world) :
  dict_wf (voice_db w) -> persisted (after_save WriteOk w) = voice_db w.
Proof.
  intros Hwf. unfold persisted, startup, load_db, set_voice_db.
  cbn [after_save set_file module_start embeddings_file voice_db].
  now apply load_serialized.
Qed.

Lemma enrolled_get (name : string) (db : voice_database) (v : list ndarray) :
  dict_get name db = Some v -> enrolled name db = v.
Proof. unfold enrolled. now intros ->. Qed.

(** C6. Enrolling a vector appends it at the end of the sequence of the
    speaker, which is created when the key is absent, and touches no other
    speaker; a second enrolment of the same speaker leaves both vectors at
    the end in the order of enrolment. The whole updated database is then
    saved: when the disk accepts the write the handler answers success, the
    file holds the serialization of the updated database, and a restart
    reads exactly that database back. *)
Theorem enroll_appends (name : string) (e : ndarray) (d : disk) (w : world) :
  let w' := snd (enroll_speaker name (Ok e) d w) in
  dict_get name (voice_db w') = Some (enrolled name (voice_db w) ++ [e]) /\
  (forall other, other <> name ->
     dict_get other (voice_db w') = dict_get other (voice_db w)) /\
  (forall e2 d2,
     dict_get name (voice_db (snd (enroll_speaker name (Ok e2) d2 w')))
     = Some (enrolled name (voice_db w) ++ [e; e2])) /\
  (d = WriteOk ->
     fst (enroll_speaker name (Ok e) d w)
       = Success ("Enrolled " ++ name)%string /\
     embeddings_file w'
       = Stored (dict_comprehension (map tolist) (voice_db w')) /\
     (dict_wf (voice_db w) -> persisted w' = voice_db w')).
Proof.
  intros w'. subst w'.
  destruct (enroll_speaker_Ok name e d w) as (db2 & Heq & Hget & Hother & _).
  rewrite Heq. cbn [fst snd]. rewrite voice_db_after_save. cbn [voice_db set_voice_db].
  split; [assumption|]. split; [assumption|]. split.
  - intros e2 d2.
    destruct (enroll_speaker_Ok name e2 d2 (after_save d (set_voice_db db2 w)))
      as (db3 & Heq3 & Hget3 & _).
    rewrite Heq3. cbn [snd]. rewrite voice_db_after_save. cbn [voice_db set_voice_db].
    rewrite Hget3, voice_db_after_save. cbn [voice_db set_voice_db].
    rewrite (enrolled_get _ _ _ Hget), <- app_assoc. reflexivity.
  - intros ->. split; [reflexivity|]. split; [reflexivity|].
    intros Hwf.
    pose proof (enroll_speaker_wf name (Ok e) WriteOk w Hwf) as Hwf2.
    rewrite Heq in Hwf2. cbn [snd after_save set_file voice_db set_voice_db] in Hwf2.
    now apply (persisted_after_write (set_voice_db db2 w)).
Qed.

Lemma enroll_appends_witness :
  let w := mk_world alice_bob Absent [] in
  let w' := snd (enroll_speaker "alice" (Ok (vec [0.6; 0.8]%float)) WriteOk w) in
  fst (enroll_speaker "alice" (Ok (vec [0.6; 0.8]%float)) WriteOk w)
    = Success "Enrolled alice"%string /\
  embeddings_file w'
    = Stored (dict_comprehension (map tolist) (voice_db w')) /\
  (dict_wf (voice_db w) -> persisted w' = voice_db w').
Proof.
  intros w w'.
  exact (proj2 (proj2 (proj2
           (enroll_appends "alice" (vec [0.6; 0.8]%float) WriteOk w))) eq_refl).
Defined.

Lemma load_db_file (w : world) :
  embeddings_file (load_db w) = embeddings_file w.
Proof.
  unfold load_db. destruct (embeddings_file w) eqn:H; simpl; congruence.
Qed.

Lemma startup_file (f : file_state) : embeddings_file (startup f) = f.
Proof. unfold startup. now rewrite load_db_file. Qed.

(** In a run the file is written by [save_db] only, and the memory only
    grows: the file is never ahead. *)
Lemma reachable_file_behind (w : world) : reachable w -> file_behind w.
Proof.
  induction 1 as [f|name embed d w Hr IH|embed w Hr IH]; intros n.
  - exists []. unfold persisted. rewrite startup_file. now rewrite app_nil_r.
  - destruct embed as [e|x]; [|exact (IH n)].
    pose proof (enroll_speaker_wf name (Ok e) d w (reachable_wf w Hr)) as Hwf.
    destruct (enroll_speaker_Ok name e d w) as (db2 & Heq & Hget & Hother & _).
    rewrite Heq in *. cbn [snd] in *. rewrite voice_db_after_save in *.
    cbn [voice_db set_voice_db] in *. destruct d.
    + exists []. rewrite persisted_after_write by assumption.
      now rewrite app_nil_r.
    + destruct (IH n) as [suffix Hs].
      change (persisted (after_save OpenFails (set_voice_db db2 w)))
        with (persisted w).
      destruct (String.eqb_spec n name) as [->|Hne].
      * exists (suffix ++ [e]).
        rewrite (enrolled_get _ _ _ Hget), Hs. now rewrite app_assoc.
      * exists suffix. unfold enrolled in *. now rewrite Hother.
    + exists (enrolled n db2). reflexivity.
  - destruct (identify_world embed w) as [-> | ->]; exact (IH n).
Qed.

(** C10. In any state of a run, when the save fails (the file cannot be
    opened, or the write breaks off) the handler answers with an HTTP 500,
    yet the vector has already been appended and stays in the in-memory
    database; from then on the memory and the file disagree: a restart
    would not read the database that is in memory. *)
Theorem enroll_not_atomic (name : string) (e : ndarray) (d : disk)
  (w : world) :
  reachable w -> d <> WriteOk ->
  let r := enroll_speaker name (Ok e) d w in
  fst r = HTTPException 500 OSError /\
  dict_get name (voice_db (snd r))
    = Some (enrolled name (voice_db w) ++ [e]) /\
  persisted (snd r) <> voice_db (snd r).
Proof.
  intros Hr Hd r. subst r.
  destruct (enroll_speaker_Ok name e d w) as (db2 & Heq & Hget & _).
  rewrite Heq. cbn [fst snd]. rewrite voice_db_after_save.
  cbn [voice_db set_voice_db].
  split; [destruct d; [now elim Hd|reflexivity|reflexivity]|].
  split; [assumption|].
  destruct d; [now elim Hd| |].
  - change (persisted (after_save OpenFails (set_voice_db db2 w)))
      with (persisted w).
    destruct (reachable_file_behind w Hr name) as [suffix Hs].
    intros Heq2. apply enrolled_get in Hget. rewrite <- Heq2, Hs in Hget.
    apply (f_equal (@List.length ndarray)) in Hget.
    rewrite !length_app in Hget. simpl in Hget. lia.
  - intros Heq2. rewrite <- Heq2 in Hget. discriminate.
Qed.

Lemma enroll_not_atomic_witness :
  let w := startup (Stored [("alice"%string, [[1; 0]%float])]) in
  let r := enroll_speaker "bob" (Ok (vec [0; 1]%float)) OpenFails w in
  fst r = HTTPException 500 OSError /\
  dict_get "bob" (voice_db (snd r)) = Some [vec [0; 1]%float] /\
  persisted (snd r) <> voice_db (snd r).
Proof.
  intros w r.
  apply (enroll_not_atomic "bob" (vec [0; 1]%float) OpenFails w).
  - apply reach_startup.
  - discriminate.
Defined.

(** C8, as stated, fails. When bob is enrolled before with the same
    vector, bob is met first and the tie goes to bob, not to the speaker
    just enrolled. And a vector that is not zero need not score 1 against
    itself: the squares of [1e200] overflow, its self-similarity is
    [inf / inf], a NaN, and the result is ("Unknown", -1.0). *)
Lemma enroll_then_identify_counterexample :
  let w := mk_world [("bob"%string, [vec [1; 0]%float])] Absent [] in
  let V := vec [1; 0]%float in
  let big := vec [1e200%float] in
  fst (identify_speaker (Ok V) (snd (enroll_speaker "alice" (Ok V) WriteOk w)))
    = {| speaker := "bob"%string; confidence := 1%float |} /\
  "bob"%string <> "alice"%string /\
  tolist big <> [0%float] /\
  similarity big big = Ok nan /\
  fst (identify_speaker (Ok big)
         (snd (enroll_speaker "alice" (Ok big) WriteOk (module_start Absent))))
    = {| speaker := "Unknown"%string; confidence := (-1)%float |}.
Proof. repeat split; discriminate. Qed.

(** What decides the speaker once the vector just enrolled scores [s]:
    for any dot product, if [s] is at least 0.999 and no vector of another
    speaker scores as high, the speaker returned is the one just enrolled. *)
Lemma enroll_then_identify_scored (dot : list float -> list float -> float)
  (S : string) (V : ndarray) (d : disk) (w : world) (s : float) :
  aligned V (voice_db w) ->
  similarity_with dot V V = Ok s ->
  PrimFloat.leb 0.999%float s = true ->
  (forall name embeddings e s',
     In (name, embeddings) (voice_db w) -> name <> S -> In e embeddings ->
     similarity_with dot V e = Ok s' -> PrimFloat.leb s s' = false) ->
  let r := fst (identify_speaker_with dot (Ok V)
                  (snd (enroll_speaker S (Ok V) d w))) in
  speaker r = S /\ PrimFloat.leb 0.999%float (confidence r) = true.
Proof.
  intros Hal Hself Hs Hothers r. subst r.
  destruct (enroll_speaker_Ok S V d w) as (db2 & Heq & Hget & _ & _ & Hin).
  rewrite Heq. cbn [snd].
  set (w1 := after_save d (set_voice_db db2 w)).
  assert (Hdb : voice_db w1 = db2)
    by (unfold w1; now rewrite voice_db_after_save).
  assert (Hne : voice_db w1 <> []).
  { rewrite Hdb. intros ->. discriminate. }
  assert (Hal2 : forall name e, In (name, e) (pairs db2) -> shape e = shape V).
  { intros name e Hp. apply in_pairs in Hp. destruct Hp as (x & Hx & He).
    destruct (Hin name x Hx) as [Hold|[-> ->]]; [now apply (Hal name x)|].
    apply in_app_iff in He. destruct He as [He|[<-|[]]]; [|reflexivity].
    unfold enrolled in He.
    destruct (dict_get S (voice_db w)) as [v|] eqn:Hv; [|destruct He].
    apply (Hal S v); [now apply dict_get_In|assumption]. }
  destruct (scored_with_aligned dot V (pairs db2) Hal2) as [l Hl].
  rewrite <- Hdb in Hl.
  rewrite (identify_with_nonempty dot V w1 l Hne Hl).
  cbn [fst speaker confidence].
  assert (HSV : In (S, V) (pairs (voice_db w1))).
  { rewrite Hdb. apply in_pairs. exists (enrolled S (voice_db w) ++ [V]).
    split; [now apply dict_get_In|]. apply in_app_iff. right. now left. }
  destruct (In_scored_with dot V _ _ S V Hl HSV) as (s0 & Hs0 & Hsim).
  assert (s0 = s) by congruence. subst s0.
  pose proof (track_bound l initial_best S s Hs0) as Hbound.
  fold (best_score l) in Hbound.
  assert (Hfloor : PrimFloat.ltb (-1)%float s = true).
  { apply ltb_leb_trans with 0.999%float; [reflexivity|assumption]. }
  destruct (best_score_cases l) as [Hinit|(l1 & l2 & Hsplit & Hgt & _)].
  { unfold best_score in Hbound. rewrite Hinit in Hbound. simpl in Hbound.
    congruence. }
  assert (Hle : PrimFloat.leb s (best_score l) = true).
  { apply leb_total; [now apply (ltb_number_r (-1)%float)
                     |now apply (leb_number_r 0.999%float)|assumption]. }
  assert (Hconf : PrimFloat.leb 0.999%float (best_score l) = true).
  { now apply leb_trans with s. }
  assert (Hth : PrimFloat.ltb (best_score l) threshold = false).
  { destruct (PrimFloat.ltb (best_score l) threshold) eqn:Hlt; [|reflexivity].
    pose proof (leb_ltb_trans _ _ _ Hconf Hlt) as H. discriminate. }
  rewrite Hth. split; [|assumption].
  assert (Hentry : In (track_entry l) l).
  { rewrite Hsplit at 2. apply in_elt. }
  unfold track_entry in Hentry.
  destruct (scored_with_In dot V _ _ _ _ Hl Hentry) as (e & He & Hse).
  rewrite Hdb in He. apply in_pairs in He. destruct He as (x & Hx & He).
  destruct (String.eqb_spec (snd (track l initial_best)) S) as [Heq2|Hneq];
    [assumption|].
  destruct (Hin _ x Hx) as [Hold|[Hname _]]; [|contradiction].
  rewrite (Hothers _ x e (best_score l) Hold Hneq He Hse) in Hle.
  discriminate.
Qed.

(** C8 (amended). Enrol a binary64 vector V for a speaker S and identify
    with V, whatever [np.dot] computes ([dot] is any function, so any order
    of summation). If the squared norm [dot V V] lies between 2^-1000 and
    2^1000 (no overflow, no underflow), then the similarity of V with itself
    is at least 0.999, by the rounding of the square roots, of their product
    and of the quotient of line 127. If moreover every vector enrolled
    before has the dimension of V and no vector of another speaker scores as
    high against V as V itself, the speaker returned is S and the confidence
    is at least 0.999, whether the save succeeded or not. *)
Theorem enroll_then_identify (dot : list float -> list float -> float)
  (S : string) (V : ndarray) (d : disk) (w : world) :
  aligned V (voice_db w) ->
  safe_norm (dot (tolist V) (tolist V)) = true ->
  (forall name embeddings e s',
     In (name, embeddings) (voice_db w) -> name <> S -> In e embeddings ->
     similarity_with dot V e = Ok s' ->
     PrimFloat.leb (self_cosine (dot (tolist V) (tolist V))) s' = false) ->
  let r := fst (identify_speaker_with dot (Ok V)
                  (snd (enroll_speaker S (Ok V) d w))) in
  similarity_with dot V V = Ok (self_cosine (dot (tolist V) (tolist V))) /\
  PrimFloat.leb 0.999%float (self_cosine (dot (tolist V) (tolist V))) = true /\
  speaker r = S /\ PrimFloat.leb 0.999%float (confidence r) = true.
Proof.
  intros Hal Hsafe Hothers r.
  pose proof (similarity_with_self dot V) as Hself.
  pose proof (Binary64Rounding.self_cosine_bound _ Hsafe) as Hs.
  split; [assumption|]. split; [assumption|].
  now apply enroll_then_identify_scored
    with (s := self_cosine (dot (tolist V) (tolist V))).
Qed.

Lemma enroll_then_identify_witness :
  let w := mk_world alice_bob Absent [] in
  let V := vec [0.1; 0.3]%float in
  let r := fst (identify_speaker (Ok V)
             (snd (enroll_speaker "carol" (Ok V) WriteFails w))) in
  speaker r = "carol"%string /\ PrimFloat.leb 0.999%float (confidence r) = true.
Proof.
  intros w V. rewrite <- identify_speaker_inner.
  refine (proj2 (proj2 (enroll_then_identify inner_dot "carol" V WriteFails w
                          _ _ _))).
  - intros name embeddings e [H|[H|[]]] He; inversion H; subst;
      destruct He as [<-|[]]; reflexivity.
  - reflexivity.
  - intros name embeddings e s' [H|[H|[]]] Hn He Hs; inversion H; subst;
      destruct He as [<-|[]]; vm_compute in Hs; inversion Hs; reflexivity.
Defined.

End Enrolment.

(** * Further properties of the matcher *)

Section Matcher.

Import Float64Facts.

(** The three ways [identify_speaker] answers. *)
Lemma identify_cases (embed : result ndarray) (w : world) :
  (voice_db w = [] /\
   fst (identify_speaker embed w)
     = {| speaker := "Unknown"%string; confidence := 0%float |}) \/
  (voice_db w <> [] /\
   identify_speaker embed w
     = (error_response, print "Identification Error"%string w)) \/
  (exists q l,
     embed = Ok q /\ voice_db w <> [] /\
     scored q (pairs (voice_db w)) = Ok l /\
     identify_speaker embed w =
       ({| speaker := if PrimFloat.ltb (best_score l) threshold
                      then "Unknown"%string else snd (track l initial_best);
           confidence := best_score l |}, w)).
Proof.
  destruct (voice_db w) as [|kv db] eqn:Hdb.
  - left. split; [reflexivity|]. unfold identify_speaker. now rewrite Hdb.
  - right. assert (Hne : voice_db w <> []) by (rewrite Hdb; discriminate).
    rewrite <- Hdb.
    destruct embed as [q|x].
    + destruct (scored q (pairs (voice_db w))) as [l|x] eqn:Hl.
      * right. exists q, l. repeat split; try assumption.
        now apply identify_nonempty.
      * left. split; [assumption|]. now apply identify_raise with x.
    + left. split; [assumption|]. now apply identify_raise with x.
Qed.

(** The running best never falls below the score it starts from, and
    stays a number. *)
Lemma track_ge (l : list (string * float)) (b : best) :
  Float64.is_number (fst b) = true ->
  PrimFloat.leb (fst b) (fst (track l b)) = true /\
  Float64.is_number (fst (track l b)) = true.
Proof.
  revert b. induction l as [|[name s] l IH]; intros b Hb.
  - split; [now apply leb_refl|assumption].
  - rewrite track_cons.
    destruct (update_cases name s b) as [[Hlt ->]|[_ ->]]; [|now apply IH].
    destruct (IH (s, name)) as [Hle Hnum]; [now apply (ltb_number_r (fst b))|].
    split; [|assumption]. apply leb_trans with s; [now apply ltb_leb|assumption].
Qed.

Lemma best_score_number (l : list (string * float)) :
  PrimFloat.leb (-1)%float (best_score l) = true /\
  Float64.is_number (best_score l) = true.
Proof. apply (track_ge l initial_best). reflexivity. Qed.

(** X1. The label identify returns is "Unknown", "Error", or the name of
    a speaker of the database who has at least one enrolled vector: no other
    string is ever answered. *)
Theorem identify_label (embed : result ndarray) (w : world) :
  let r := fst (identify_speaker embed w) in
  speaker r = "Unknown"%string \/ speaker r = "Error"%string \/
  exists embeddings e,
    In (speaker r, embeddings) (voice_db w) /\ In e embeddings.
Proof.
  intros r. subst r.
  destruct (identify_cases embed w)
    as [[_ ->]|[[_ ->]|(q & l & _ & _ & Hl & ->)]];
    [now left|right; now left|]. cbn [fst speaker].
  destruct (PrimFloat.ltb (best_score l) threshold); [now left|].
  destruct (best_score_cases l) as [->|(l1 & l2 & Hsplit & _)]; [now left|].
  right. right.
  assert (Hentry : In (track_entry l) l) by (rewrite Hsplit at 2; apply in_elt).
  destruct (scored_In q _ _ _ _ Hl Hentry) as (e & He & _).
  apply in_pairs in He. destruct He as (x & Hx & He). now exists x, e.
Qed.

(** X2. Whatever the query and the database, the confidence identify
    returns is a number (never a NaN) and is at least -1.0. *)
Theorem identify_confidence_floor (embed : result ndarray) (w : world) :
  let r := fst (identify_speaker embed w) in
  Float64.is_number (confidence r) = true /\
  PrimFloat.leb (-1)%float (confidence r) = true.
Proof.
  intros r. subst r.
  destruct (identify_cases embed w)
    as [[_ ->]|[[_ ->]|(q & l & _ & _ & _ & ->)]];
    [split; reflexivity|split; reflexivity|]. cbn [fst confidence].
  destruct (best_score_number l). now split.
Qed.

(** X3. A label other than the two sentinels comes with a confidence of
    at least 0.70: below the threshold no speaker is ever named. *)
Theorem identify_named_confidence (embed : result ndarray) (w : world) :
  let r := fst (identify_speaker embed w) in
  speaker r <> "Unknown"%string -> speaker r <> "Error"%string ->
  PrimFloat.leb threshold (confidence r) = true.
Proof.
  intros r. subst r.
  destruct (identify_cases embed w)
    as [[_ ->]|[[_ ->]|(q & l & _ & _ & _ & ->)]]; cbn [fst speaker confidence];
    [intros H; now elim H|intros _ H; now elim H|].
  destruct (PrimFloat.ltb (best_score l) threshold) eqn:Hlt;
    [intros H; now elim H|intros _ _].
  apply leb_total; [apply best_score_number|reflexivity|assumption].
Qed.

Lemma identify_named_confidence_witness :
  PrimFloat.leb threshold
    (confidence (fst (identify_speaker (Ok (vec [3; 4]%float))
                        (mk_world alice_bob Absent [])))) = true.
Proof.
  apply (identify_named_confidence (Ok (vec [3; 4]%float))
           (mk_world alice_bob Absent [])); discriminate.
Defined.

(** X4. A database that holds two vectors of different dimensions answers
    the error result to every query: no query can match both. *)
Theorem identify_mixed_dimensions (w : world) (n1 n2 : string)
  (x1 x2 : list ndarray) (e1 e2 : ndarray) (q : ndarray) :
  In (n1, x1) (voice_db w) -> In e1 x1 ->
  In (n2, x2) (voice_db w) -> In e2 x2 ->
  shape e1 <> shape e2 ->
  identify_speaker (Ok q) w
    = (error_response, print "Identification Error"%string w).
Proof.
  intros H1 He1 H2 He2 Hne.
  assert (Hdb : voice_db w <> []) by (intros Hnil; rewrite Hnil in H1; destruct H1).
  apply identify_raise with ValueError; [assumption|]. cbn [bind].
  destruct (Nat.eq_dec (shape e1) (shape q)) as [Heq|Hneq].
  - apply scored_misaligned with n2 e2; [apply in_pairs; eauto|congruence].
  - apply scored_misaligned with n1 e1; [apply in_pairs; eauto|assumption].
Qed.

Lemma identify_mixed_dimensions_witness :
  let w := mk_world [("alice"%string, [vec [1; 0]%float; vec [1; 0; 0]%float])]
             Absent [] in
  identify_speaker (Ok (vec [1; 0]%float)) w
    = (error_response, print "Identification Error"%string w).
Proof.
  intros w.
  apply (identify_mixed_dimensions w "alice" "alice"
           [vec [1; 0]%float; vec [1; 0; 0]%float]
           [vec [1; 0]%float; vec [1; 0; 0]%float]
           (vec [1; 0]%float) (vec [1; 0; 0]%float)).
  - left. reflexivity.
  - left. reflexivity.
  - left. reflexivity.
  - right. left. reflexivity.
  - discriminate.
Defined.

(** X5. A database that is not empty but holds no vector (speakers with
    empty sequences, as a file can store them) answers ("Unknown", -1.0) to
    every query: the confidence is the initial -1.0 of the scan, not the 0.0
    of the empty database. *)
Theorem identify_no_vectors (q : ndarray) (w : world) :
  voice_db w <> [] ->
  (forall name embeddings, In (name, embeddings) (voice_db w) ->
                           embeddings = []) ->
  identify_speaker (Ok q) w
    = ({| speaker := "Unknown"%string; confidence := (-1)%float |}, w).
Proof.
  intros Hne Hall.
  assert (Hp : pairs (voice_db w) = []).
  { destruct (pairs (voice_db w)) as [|[n e] ps] eqn:Hps; [reflexivity|].
    assert (Hin : In (n, e) (pairs (voice_db w))) by (rewrite Hps; now left).
    apply in_pairs in Hin. destruct Hin as (x & Hx & He).
    rewrite (Hall n x Hx) in He. destruct He. }
  rewrite (identify_nonempty q w [] Hne); [reflexivity|].
  now rewrite Hp.
Qed.

Lemma identify_no_vectors_witness :
  let w := startup (Stored [("alice"%string, [])]) in
  identify_speaker (Ok (vec [1; 0]%float)) w
    = ({| speaker := "Unknown"%string; confidence := (-1)%float |}, w).
Proof.
  intros w. apply (identify_no_vectors (vec [1; 0]%float) w).
  - discriminate.
  - intros name embeddings [H|[]]. now inversion H.
Defined.

End Matcher.

(** * Further properties of the store *)

Section Store.

Import Float64Facts.

Lemma pairs_app (a b : voice_database) : pairs (a ++ b) = pairs a ++ pairs b.
Proof. unfold pairs. apply flat_map_app. Qed.

Lemma pairs_cons (name : string) (v : list ndarray) (db : voice_database) :
  pairs ((name, v) :: db) = map (pair name) v ++ pairs db.
Proof. reflexivity. Qed.

Lemma dict_append_split {A : Type} (k : string) (e : A) (d : dict (list A))
  (v : list A) :
  dict_get k d = Some v ->
  exists d1 d2,
    d = d1 ++ (k, v) :: d2 /\
    dict_append k e d = Ok (d1 ++ (k, v ++ [e]) :: d2).
Proof.
  induction d as [|[k' v'] d IH]; simpl; [discriminate|].
  destruct (String.eqb_spec k k') as [->|Hne].
  - intros H. inversion H; subst. now exists [], d.
  - intros H. destruct (IH H) as (d1 & d2 & -> & Happ).
    exists ((k', v') :: d1), d2. rewrite Happ. split; reflexivity.
Qed.

(** The database after an enrolment with a vector: the vector is put at the
    end of the sequence of the speaker where it stands, or a new speaker is
    put last. *)
Lemma enroll_speaker_db (name : string) (e : ndarray) (d : disk) (w : world) :
  (exists d1 v d2,
     voice_db w = d1 ++ (name, v) :: d2 /\
     voice_db (snd (enroll_speaker name (Ok e) d w))
       = d1 ++ (name, v ++ [e]) :: d2) \/
  voice_db (snd (enroll_speaker name (Ok e) d w))
    = voice_db w ++ [(name, [e])].
Proof.
  unfold enroll_speaker, dict_contains.
  destruct (dict_get name (voice_db w)) as [v|] eqn:Hget; simpl negb; cbv iota.
  - left. destruct (dict_append_split name e _ v Hget) as (d1 & d2 & Hdb & Happ).
    exists d1, v, d2. split; [assumption|]. rewrite Happ.
    destruct d; reflexivity.
  - right. apply dict_get_None in Hget.
    rewrite dict_setitem_fresh by assumption.
    rewrite dict_append_fresh by assumption.
    destruct d; reflexivity.
Qed.

(** An enrolment whose embedding failed leaves the state as it was. *)
Lemma enroll_speaker_Raise (name : string) (x : exn) (d : disk) (w : world) :
  enroll_speaker name (Raise x) d w = (HTTPException 500 x, w).
Proof. reflexivity. Qed.

Lemma serve_cons (r : request) (rs : list request) (w : world) :
  serve (r :: rs) w = serve rs (handle r w).
Proof. reflexivity. Qed.

(** One request keeps what is enrolled, in its order. *)
Lemma handle_grows (r : request) (w : world) (name : string) :
  exists suffix,
    enrolled name (voice_db (handle r w))
      = enrolled name (voice_db w) ++ suffix.
Proof.
  destruct r as [n [e|x] d|embed]; cbn [handle].
  - destruct (enroll_speaker_Ok n e d w) as (db2 & Heq & Hget & Hother & _).
    rewrite Heq. cbn [snd]. rewrite voice_db_after_save.
    cbn [voice_db set_voice_db].
    destruct (String.eqb_spec name n) as [->|Hne].
    + exists [e]. now apply enrolled_get.
    + exists []. unfold enrolled. rewrite Hother by assumption.
      now rewrite app_nil_r.
  - exists []. now rewrite app_nil_r.
  - exists []. destruct (identify_world embed w) as [-> | ->];
      now rewrite app_nil_r.
Qed.

Lemma handle_keys (r : request) (w : world) :
  exists ks, keys (voice_db (handle r w)) = keys (voice_db w) ++ ks.
Proof.
  destruct r as [n [e|x] d|embed]; cbn [handle].
  - destruct (enroll_speaker_Ok n e d w) as (db2 & Heq & _ & _ & Hkeys & _).
    rewrite Heq. cbn [snd]. rewrite voice_db_after_save.
    cbn [voice_db set_voice_db]. rewrite Hkeys.
    destruct (dict_contains n (voice_db w)); [exists []|exists [n]];
      now rewrite ?app_nil_r.
  - exists []. now rewrite app_nil_r.
  - exists []. destruct (identify_world embed w) as [-> | ->];
      now rewrite app_nil_r.
Qed.

Lemma serve_grows_vectors (rs : list request) (w : world) (name : string) :
  exists suffix,
    enrolled name (voice_db (serve rs w))
      = enrolled name (voice_db w) ++ suffix.
Proof.
  revert w. induction rs as [|r rs IH]; intros w.
  - exists []. now rewrite app_nil_r.
  - rewrite serve_cons. destruct (IH (handle r w)) as [s2 H2].
    destruct (handle_grows r w name) as [s1 H1].
    exists (s1 ++ s2). now rewrite H2, H1, app_assoc.
Qed.

Lemma serve_grows_keys (rs : list request) (w : world) :
  exists ks, keys (voice_db (serve rs w)) = keys (voice_db w) ++ ks.
Proof.
  revert w. induction rs as [|r rs IH]; intros w.
  - exists []. now rewrite app_nil_r.
  - rewrite serve_cons. destruct (IH (handle r w)) as [ks Hk].
    destruct (handle_keys r w) as [ks1 H1].
    exists (ks1 ++ ks). now rewrite Hk, H1, app_assoc.
Qed.

(** X7. The database only grows. Through any sequence of requests,
    whatever the provider and the disk do, the vectors enrolled for a speaker
    stay where they are, in their order, with later ones after them; and the
    speakers keep their iteration order, with new speakers after them. *)
Theorem serve_grows (rs : list request) (w : world) :
  (forall name, exists suffix,
     enrolled name (voice_db (serve rs w))
       = enrolled name (voice_db w) ++ suffix) /\
  (exists ks, keys (voice_db (serve rs w)) = keys (voice_db w) ++ ks).
Proof.
  split; [intros name; apply serve_grows_vectors|apply serve_grows_keys].
Qed.

Lemma handle_pairs (r : request) (w : world) :
  List.length (pairs (voice_db (handle r w)))
  = List.length (pairs (voice_db w)) + (if appends r then 1 else 0).
Proof.
  destruct r as [n [e|x] d|embed]; cbn [handle appends].
  - destruct (enroll_speaker_db n e d w)
      as [(d1 & v & d2 & Hdb & ->)| ->].
    + rewrite Hdb, !pairs_app, !pairs_cons.
      rewrite !length_app, !length_map, length_app. simpl. lia.
    + rewrite pairs_app, length_app. reflexivity.
  - cbn. lia.
  - destruct (identify_world embed w) as [-> | ->]; cbn [voice_db print]; lia.
Qed.

(** X8. Every enrolment whose embedding was obtained adds exactly one
    (speaker, vector) pair, also when the vector is already enrolled or the
    save fails, and nothing else adds or removes one: after any sequence of
    requests the number of pairs has grown by the number of such
    enrolments. *)
Theorem serve_pairs (rs : list request) (w : world) :
  List.length (pairs (voice_db (serve rs w)))
  = List.length (pairs (voice_db w)) + List.length (filter appends rs).
Proof.
  revert w. induction rs as [|r rs IH]; intros w.
  - cbn. lia.
  - rewrite serve_cons, IH, handle_pairs. cbn [filter].
    destruct (appends r); cbn [List.length]; lia.
Qed.

(** X9. The handler answers success only when the embedding was obtained
    and the write succeeded, and then the file holds the serialization of the
    whole database that is in memory. *)
Theorem enroll_success (name : string) (embed : result ndarray) (d : disk)
  (w : world) (message : string) :
  fst (enroll_speaker name embed d w) = Success message ->
  (exists e, embed = Ok e) /\ d = WriteOk /\
  message = ("Enrolled " ++ name)%string /\
  embeddings_file (snd (enroll_speaker name embed d w))
    = Stored (dict_comprehension (map tolist)
                (voice_db (snd (enroll_speaker name embed d w)))).
Proof.
  destruct embed as [e|x]; [|discriminate].
  destruct (enroll_speaker_Ok name e d w) as (db2 & -> & _).
  destruct d; cbn [fst snd enroll_outcome]; try discriminate.
  intros H. inversion H. repeat split. now exists e.
Qed.

Lemma enroll_success_witness :
  let r := enroll_speaker "alice" (Ok (vec [0; 1]%float)) WriteOk
             (mk_world alice_bob Absent []) in
  embeddings_file (snd r)
    = Stored (dict_comprehension (map tolist) (voice_db (snd r))).
Proof.
  intros r.
  exact (proj2 (proj2 (proj2
    (enroll_success "alice" (Ok (vec [0; 1]%float)) WriteOk
       (mk_world alice_bob Absent []) "Enrolled alice"%string eq_refl)))).
Defined.

Lemma tolist_np_array (v : list (list float)) :
  map tolist (map np_array v) = v.
Proof.
  rewrite map_map. rewrite <- (map_id v) at 2. now apply map_ext.
Qed.

(** X10. A file whose object names every speaker once keeps its value
    through a startup followed by a save that succeeds: the file written
    holds the same speakers in the same order with the same binary64
    numbers. (The text is not represented: [json.dump] may spell the same
    value differently.) *)
Theorem load_save_roundtrip (text : json_object) :
  dict_wf text ->
  embeddings_file (snd (save_db WriteOk (startup (Stored text))))
    = Stored text.
Proof.
  intros Hwf. unfold save_db, startup, load_db.
  cbn [module_start embeddings_file set_voice_db voice_db snd set_file].
  f_equal. rewrite json_load_wf by assumption.
  assert (Hk : dict_wf (dict_comprehension (map np_array) text)).
  { unfold dict_wf. now rewrite keys_comprehension. }
  rewrite (dict_comprehension_wf (map tolist)) by assumption.
  rewrite dict_comprehension_wf by assumption.
  rewrite map_map. rewrite <- (map_id text) at 2. apply map_ext.
  intros [k v]. cbn [fst snd]. now rewrite tolist_np_array.
Qed.

Lemma load_save_roundtrip_witness :
  let text := [("alice"%string, [[1; 0]%float; [0.6; 0.8]%float]);
               ("bob"%string, [])] in
  embeddings_file (snd (save_db WriteOk (startup (Stored text))))
    = Stored text.
Proof.
  intros text. apply (load_save_roundtrip text).
  repeat constructor; simpl; intuition discriminate.
Defined.

(** The response of identify depends on the state through the database in
    memory only. *)
Lemma identify_response_db (embed : result ndarray) (w1 w2 : world) :
  voice_db w1 = voice_db w2 ->
  fst (identify_speaker embed w1) = fst (identify_speaker embed w2).
Proof.
  intros H. unfold identify_speaker. rewrite H.
  destruct (voice_db w2) as [|kv db]; [reflexivity|].
  destruct (query_embedding <- embed ;;
            scan_db query_embedding (kv :: db) initial_best)
    as [[best_score best_match]|x]; reflexivity.
Qed.

(** X11. With embeddings that are float64 arrays (the mock provider, and
    every vector read from the file), after an enrolment whose save
    succeeded a restart changes no answer: identify gives on the restarted
    service the response it gives on the running one, for every such
    query. *)
Theorem restart_same_answers (name : string) (e : ndarray) (w : world)
  (embed : result ndarray) :
  reachable w ->
  let w' := snd (enroll_speaker name (Ok e) WriteOk w) in
  fst (identify_speaker embed (startup (embeddings_file w')))
  = fst (identify_speaker embed w').
Proof.
  intros Hr w'. apply identify_response_db. subst w'.
  pose proof (enroll_speaker_wf name (Ok e) WriteOk w (reachable_wf w Hr)) as Hwf.
  destruct (enroll_speaker_Ok name e WriteOk w) as (db2 & Heq & _).
  rewrite Heq in *. cbn [snd] in *. rewrite voice_db_after_save in *.
  now apply (persisted_after_write (set_voice_db db2 w)).
Qed.

Lemma restart_same_answers_witness :
  let w := startup (Stored [("bob"%string, [[0; 1]%float])]) in
  let w' := snd (enroll_speaker "alice" (Ok (vec [1; 0]%float)) WriteOk w) in
  fst (identify_speaker (Ok (vec [1; 0]%float)) (startup (embeddings_file w')))
  = fst (identify_speaker (Ok (vec [1; 0]%float)) w').
Proof.
  intros w.
  apply (restart_same_answers "alice" (vec [1; 0]%float) w
           (Ok (vec [1; 0]%float))).
  apply reach_startup.
Defined.

(** X12. A vector of another dimension, once enrolled, breaks
    identification for good: after any further requests, every query of a
    different dimension is answered with the error result. *)
Theorem enroll_wrong_dimension_sticks (name : string) (e q : ndarray)
  (d : disk) (w : world) (rs : list request) :
  shape e <> shape q ->
  let w' := serve rs (snd (enroll_speaker name (Ok e) d w)) in
  identify_speaker (Ok q) w'
    = (error_response, print "Identification Error"%string w').
Proof.
  intros Hne w'. subst w'.
  set (w1 := snd (enroll_speaker name (Ok e) d w)).
  assert (H1 : In e (enrolled name (voice_db w1))).
  { unfold w1. destruct (enroll_speaker_Ok name e d w) as (db2 & Heq & Hget & _).
    rewrite Heq. cbn [snd]. rewrite voice_db_after_save.
    cbn [voice_db set_voice_db]. rewrite (enrolled_get _ _ _ Hget).
    apply in_app_iff. right. now left. }
  destruct (serve_grows_vectors rs w1 name) as [suffix Hs].
  assert (H2 : In e (enrolled name (voice_db (serve rs w1)))).
  { rewrite Hs. apply in_app_iff. now left. }
  unfold enrolled in H2.
  destruct (dict_get name (voice_db (serve rs w1))) as [v|] eqn:Hget;
    [|destruct H2].
  apply dict_get_In in Hget.
  assert (Hdb : voice_db (serve rs w1) <> []).
  { intros Hnil. rewrite Hnil in Hget. destruct Hget. }
  apply identify_raise with ValueError; [assumption|]. cbn [bind].
  apply scored_misaligned with name e; [apply in_pairs; eauto|assumption].
Qed.

Lemma enroll_wrong_dimension_sticks_witness :
  let w' := serve [Identify (Ok (vec [1; 0]%float));
                   Enroll "bob" (Ok (vec [0; 1]%float)) WriteOk]
              (snd (enroll_speaker "alice" (Ok (vec [1; 0; 0]%float)) WriteOk
                      (mk_world alice_bob Absent []))) in
  identify_speaker (Ok (vec [1; 0]%float)) w'
    = (error_response, print "Identification Error"%string w').
Proof.
  apply (enroll_wrong_dimension_sticks "alice" (vec [1; 0; 0]%float)
           (vec [1; 0]%float) WriteOk (mk_world alice_bob Absent [])).
  discriminate.
Defined.

Lemma enroll_keeps_pairs (name : string) (e : ndarray) (d : disk) (w : world)
  (p : string * ndarray) :
  In p (pairs (voice_db (snd (enroll_speaker name (Ok e) d w)))) <->
  In p (pairs (voice_db w)) \/ p = (name, e).
Proof.
  destruct (enroll_speaker_db name e d w) as [(d1 & v & d2 & Hdb & ->)| ->].
  - rewrite Hdb, !pairs_app, !pairs_cons, map_app, !in_app_iff. simpl.
    intuition congruence.
  - rewrite pairs_app, in_app_iff. simpl. intuition congruence.
Qed.

(** X13. On a database that is not empty, enrolling one more vector of
    the dimension of the query never lowers the confidence identify returns
    for that query, whoever the vector is enrolled for. *)
Theorem enroll_confidence_monotone (name : string) (e q : ndarray) (d : disk)
  (w : world) :
  voice_db w <> [] -> aligned q (voice_db w) -> shape e = shape q ->
  PrimFloat.leb
    (confidence (fst (identify_speaker (Ok q) w)))
    (confidence (fst (identify_speaker (Ok q)
                        (snd (enroll_speaker name (Ok e) d w))))) = true.
Proof.
  intros Hne Hal He.
  set (w' := snd (enroll_speaker name (Ok e) d w)).
  assert (Hkeep := enroll_keeps_pairs name e d w). fold w' in Hkeep.
  destruct (scored_aligned q (pairs (voice_db w))) as [l Hl].
  { intros n e0 Hin. apply in_pairs in Hin. destruct Hin as (x & Hx & H0).
    now apply (Hal n x). }
  destruct (scored_aligned q (pairs (voice_db w'))) as [l' Hl'].
  { intros n e0 Hin. apply Hkeep in Hin. destruct Hin as [Hin|Heq].
    - apply in_pairs in Hin. destruct Hin as (x & Hx & H0). now apply (Hal n x).
    - now inversion Heq. }
  assert (Hne' : voice_db w' <> []).
  { intros Hnil. assert (Hin : In (name, e) (pairs (voice_db w')))
      by (apply Hkeep; now right).
    rewrite Hnil in Hin. destruct Hin. }
  rewrite (identify_nonempty q w l Hne Hl), (identify_nonempty q w' l' Hne' Hl').
  cbn [fst confidence].
  destruct (best_score_number l') as [Hfloor Hnum'].
  destruct (best_score_cases l) as [Hinit|(l1 & l2 & Hsplit & Hgt & _)].
  { unfold best_score at 1. now rewrite Hinit. }
  apply leb_total; [assumption|apply best_score_number|].
  assert (Hentry : In (track_entry l) l) by (rewrite Hsplit at 2; apply in_elt).
  destruct (scored_In q _ _ _ _ Hl Hentry) as (e0 & Hin0 & Hs0).
  assert (Hin' : In (snd (track l initial_best), e0) (pairs (voice_db w')))
    by (apply Hkeep; now left).
  destruct (In_scored q _ _ _ _ Hl' Hin') as (s & Hs & Hsim).
  assert (s = best_score l) by congruence. subst s.
  unfold best_score at 1. eapply track_bound. eassumption.
Qed.

Lemma enroll_confidence_monotone_witness :
  let w := mk_world alice_bob Absent [] in
  PrimFloat.leb
    (confidence (fst (identify_speaker (Ok (vec [3; 4]%float)) w)))
    (confidence (fst (identify_speaker (Ok (vec [3; 4]%float))
                        (snd (enroll_speaker "alice" (Ok (vec [3; 4]%float))
                                OpenFails w))))) = true.
Proof.
  intros w.
  apply (enroll_confidence_monotone "alice" (vec [3; 4]%float)
           (vec [3; 4]%float) OpenFails w).
  - discriminate.
  - intros name embeddings e [H|[H|[]]] He; inversion H; subst;
      destruct He as [<-|[]]; reflexivity.
  - reflexivity.
Defined.

Lemma handle_reachable (r : request) (w : world) :
  reachable w -> reachable (handle r w).
Proof. destruct r; cbn [handle]; now constructor. Qed.

Lemma serve_reachable (rs : list request) (w : world) :
  reachable w -> reachable (serve rs w).
Proof.
  revert w. induction rs as [|r rs IH]; intros w Hr; [assumption|].
  rewrite serve_cons. apply IH. now apply handle_reachable.
Qed.

(** One request during which no save fails keeps the file and the memory
    in agreement. *)
Lemma handle_in_sync (r : request) (w : world) :
  dict_wf (voice_db w) -> save_succeeds r = true ->
  persisted w = voice_db w -> persisted (handle r w) = voice_db (handle r w).
Proof.
  intros Hwf Hok Hsync. destruct r as [n [e|x] d|embed]; cbn [handle].
  - destruct d; try discriminate.
    pose proof (enroll_speaker_wf n (Ok e) WriteOk w Hwf) as Hwf2.
    destruct (enroll_speaker_Ok n e WriteOk w) as (db2 & Heq & _).
    rewrite Heq in *. cbn [snd] in *. rewrite voice_db_after_save in *.
    now apply (persisted_after_write (set_voice_db db2 w)).
  - exact Hsync.
  - destruct (identify_world embed w) as [-> | ->]; exact Hsync.
Qed.

(** X14. As long as no save fails, the file and the memory agree after
    every request: from the startup on, whatever is enrolled and identified,
    a restart would read exactly the database that is in memory. *)
Theorem serve_in_sync (f : file_state) (rs : list request) :
  forallb save_succeeds rs = true ->
  persisted (serve rs (startup f)) = voice_db (serve rs (startup f)).
Proof.
  assert (H : forall w, reachable w -> persisted w = voice_db w ->
                        forallb save_succeeds rs = true ->
                        persisted (serve rs w) = voice_db (serve rs w)).
  { induction rs as [|r rs IH]; intros w Hr Hsync Hall; [assumption|].
    cbn [forallb] in Hall. apply andb_true_iff in Hall. destruct Hall as [Hr1 Hrs].
    rewrite serve_cons. apply IH; [now apply handle_reachable| |assumption].
    apply handle_in_sync; [now apply reachable_wf|assumption|assumption]. }
  apply H; [apply reach_startup|].
  unfold persisted. now rewrite startup_file.
Qed.

Lemma serve_in_sync_witness :
  let rs := [Enroll "alice" (Ok (vec [1; 0]%float)) WriteOk;
             Identify (Ok (vec [0; 1]%float));
             Enroll "bob" (Raise ProviderError) OpenFails;
             Enroll "alice" (Ok (vec [0; 1]%float)) WriteOk] in
  persisted (serve rs (startup Malformed))
    = voice_db (serve rs (startup Malformed)).
Proof. intros rs. apply (serve_in_sync Malformed rs). reflexivity. Defined.

(** X15. In every state of a run the file is never ahead of the memory:
    speaker by speaker, the vectors a restart would read are an initial part
    of the vectors enrolled in memory, in the same order. *)
Theorem run_file_behind (f : file_state) (rs : list request) (name : string) :
  exists suffix,
    enrolled name (voice_db (serve rs (startup f)))
    = enrolled name (persisted (serve rs (startup f))) ++ suffix.
Proof.
  apply reachable_file_behind. apply serve_reachable. apply reach_startup.
Qed.

(** X16. Requests that append nothing (identifications, and enrolments
    whose embedding failed) leave the database and the file as they were,
    however many of them are served. *)
Theorem serve_read_only (rs : list request) (w : world) :
  forallb (fun r => negb (appends r)) rs = true ->
  voice_db (serve rs w) = voice_db w /\
  embeddings_file (serve rs w) = embeddings_file w.
Proof.
  revert w. induction rs as [|r rs IH]; intros w Hall; [now split|].
  cbn [forallb] in Hall. apply andb_true_iff in Hall. destruct Hall as [Hr Hrs].
  rewrite serve_cons. destruct (IH (handle r w) Hrs) as [-> ->].
  destruct r as [n [e|x] d|embed]; cbn [handle]; [discriminate|now split|].
  destruct (identify_world embed w) as [-> | ->]; now split.
Qed.

Lemma serve_read_only_witness :
  let w := mk_world alice_bob Malformed [] in
  let rs := [Identify (Ok (vec [1; 0; 0]%float));
             Enroll "carol" (Raise ProviderError) WriteOk;
             Identify (Raise ProviderError)] in
  voice_db (serve rs w) = alice_bob /\ embeddings_file (serve rs w) = Malformed.
Proof.
  intros w rs. apply (serve_read_only rs w). reflexivity.
Defined.

End Store.
